(** * rPTMValidation: the decoy mass search and ion scoring of [validate.py]

    A shallow embedding of the decoy search engine of [src/validate.py]
    ([match_decoys], [count_matched_ions], [Validate.modify_decoys],
    [Validate.gen_fixed_mods], [Validate._generate_residue_decoys] and
    [Validate._generate_decoy_matches]) and of the Unimod table of
    [src/readers.py] ([PTMDB]), together with the properties the
    specification states about the engine and further properties of the
    code.

    Conventions of the embedding:
    - Python floats are rationals ([Q]); comparisons are the exact ones,
      rounding is not modelled.
    - Python exceptions ([IndexError], [ValueError], [TypeError],
      [KeyError]) are [None] in the [option] monad; a function that cannot
      raise is a total function. Python's own [None] is [None] of an inner
      [option].
    - A one-character Python string (a residue) and a sequence are both
      [string]; iterating a sequence yields one-character strings.
    - The order in which CPython iterates a [set] is not fixed by the
      language; every place where the source turns a set into a sequence
      takes that order as an explicit argument. *)

From Stdlib Require Import String Ascii.
From Stdlib Require Import List Arith ZArith QArith Qabs Lia Lqa Bool.
From Stdlib Require Import Permutation Sorted FinFun.
Import ListNotations.

Local Open Scope Q_scope.

(** ** Exceptions as [option] *)

Definition bind {A B : Type} (m : option A) (k : A -> option B) : option B :=
  match m with
  | Some a => k a
  | None => None
  end.

Notation "x <- m ;; k" := (bind m (fun x => k))
  (at level 61, m at next level, right associativity).

(** A loop that threads a value through the elements and stops at the
    first exception. *)
Fixpoint foldM {S A : Type} (f : S -> A -> option S) (l : list A) (s : S)
  : option S :=
  match l with
  | [] => Some s
  | a :: l' => s' <- f s a ;; foldM f l' s'
  end.

Fixpoint mapM {A B : Type} (f : A -> option B) (l : list A) : option (list B) :=
  match l with
  | [] => Some []
  | a :: l' =>
      b <- f a ;;
      bs <- mapM f l' ;;
      Some (b :: bs)
  end.

(** ** Python sequences *)

(** [l[i]]: a negative index counts from the end, anything outside
    [-len, len) raises [IndexError]. *)
Definition py_getitem {A : Type} (l : list A) (i : Z) : option A :=
  let n := Z.of_nat (length l) in
  if (0 <=? i)%Z then nth_error l (Z.to_nat i)
  else if (- n <=? i)%Z then nth_error l (Z.to_nat (n + i))
  else None.

(** [l[start:end]] for non-negative [start] and [end]: never raises. *)
Definition py_slice {A : Type} (l : list A) (start stop : nat) : list A :=
  firstn (stop - start) (skipn start l).

(** [enumerate(l)], counting from [start]. *)
Fixpoint enumerate_from {A : Type} (start : nat) (l : list A) : list (nat * A) :=
  match l with
  | [] => []
  | a :: l' => (start, a) :: enumerate_from (S start) l'
  end.

Definition enumerate {A : Type} (l : list A) : list (nat * A) :=
  enumerate_from 0 l.

(** The positions of the [True] entries of a boolean mask
    ([numpy.nonzero] on a one-dimensional mask). *)
Definition nonzero (mask : list bool) : list nat :=
  map fst (filter snd (enumerate mask)).

(** Iterating a string yields its one-character strings. *)
Fixpoint chars (s : string) : list string :=
  match s with
  | EmptyString => []
  | String c s' => String c EmptyString :: chars s'
  end.

(** ** Float comparisons *)

Definition Qleb (x y : Q) : bool := Qle_bool x y.
Definition Qltb (x y : Q) : bool := negb (Qle_bool y x).

(** ** [bisect.bisect_left]

    The loop of the Python standard library:
    [while lo < hi: mid = (lo + hi) // 2; if a[mid] < x: lo = mid + 1 else: hi = mid].
    The first argument bounds the number of iterations; [hi - lo] iterations
    always suffice ([bisect_loop_fuel]). *)
Fixpoint bisect_loop (fuel : nat) (a : list Q) (x : Q) (lo hi : nat) : nat :=
  match fuel with
  | O => lo
  | S fuel' =>
      if (lo <? hi)%nat then
        let mid := ((lo + hi) / 2)%nat in
        if Qltb (nth mid a 0) x
        then bisect_loop fuel' a x (S mid) hi
        else bisect_loop fuel' a x lo mid
      else lo
  end.

Definition bisect_left (a : list Q) (x : Q) : nat :=
  bisect_loop (length a) a x 0 (length a).

(** ** Data model *)

(** The position of a modification: a 1-based residue index or a terminus. *)
Inductive Site : Type :=
| SiteIdx (i : nat)
| SiteNterm
| SiteCterm.

(** [modifications.ModSite(mass, site, mod)]. The mass is [None] in the
    source when it comes from a Unimod lookup that resolved nothing. *)
Record ModSite : Type := mkModSite {
  ms_mass : option Q;
  ms_site : Site;
  ms_mod : option string
}.

(** [pepfrag.Peptide(seq, charge, mods)]. *)
Record Peptide : Type := mkPeptide {
  pep_seq : string;
  pep_charge : Z;
  pep_mods : list ModSite
}.

(** A centroided spectrum: the peak m/z values and their intensities. *)
Record Spectrum : Type := mkSpectrum {
  spec_mz : list Q;
  spec_intensity : list Q
}.

(** ** [count_matched_ions]

    [get_by_ion_mzs] is [peptides.get_by_ion_mzs], the theoretical b/y ion
    m/z list of the peptide, supplied by the fragmentation library. *)

(** The summand of one peak: [(idx > 0 and mz - ion_mzs[idx - 1] <= 0.2) or
    (idx < len(ion_mzs) and ion_mzs[idx] - mz <= 0.2)], with Python's
    short-circuit evaluation; an indexing error propagates. *)
Definition peak_matched (ion_mzs : list Q) (idx : nat) (mz : Q) : option bool :=
  let i := Z.of_nat idx in
  left_ok <-
    (if (0 <? i)%Z
     then below <- py_getitem ion_mzs (i - 1) ;;
          Some (Qleb (mz - below) (2 # 10))
     else Some false) ;;
  if (left_ok : bool) then Some true
  else if (i <? Z.of_nat (length ion_mzs))%Z
       then above <- py_getitem ion_mzs i ;;
            Some (Qleb (above - mz) (2 # 10))
       else Some false.

Definition count_true (bs : list bool) : nat :=
  fold_right (fun (b : bool) n => if b then S n else n) 0%nat bs.

Definition count_matched_ions_of (ion_mzs : list Q) (mzs : list Q) : option nat :=
  let bisect_idxs := map (bisect_left ion_mzs) mzs in
  flags <- mapM (fun im => peak_matched ion_mzs (fst im) (snd im))
                (combine bisect_idxs mzs) ;;
  Some (count_true flags).

Definition count_matched_ions (get_by_ion_mzs : Peptide -> list Q)
    (peptide : Peptide) (spectrum : Spectrum) : option nat :=
  count_matched_ions_of (get_by_ion_mzs peptide) (spec_mz spectrum).

(** ** The mass index *)

(** [utilities.Slices]: for every slice the pool offset at which it starts
    and its mass bound. *)
Record Slices : Type := mkSlices {
  sl_idxs : list nat;
  sl_bounds : list Q
}.

Definition slice_start (size nslices i : nat) : nat :=
  (size * i / nslices)%nat.

(** Modelled from the spec: [utilities.slice_list] is not part of the
    sources at hand. Section 4.3: the sorted mass array is partitioned into
    [nslices] contiguous slices of about equal size, and for each slice its
    upper mass bound and its starting pool offset are recorded. Slice [i]
    covers the offsets from [slice_start i] up to (excluding)
    [slice_start (i + 1)]; its upper bound is its last mass. *)
Definition slice_list (values : list Q) (nslices : nat) : Slices :=
  let size := length values in
  {| sl_idxs := map (slice_start size nslices) (seq 0 nslices);
     sl_bounds := map (fun i => nth (slice_start size nslices (S i) - 1) values 0)
                      (seq 0 nslices) |}.

(** [DecoyPeptides(seqs, var_idxs, idxs, mods, masses)]: [masses], [idxs] and
    [mods] are parallel and ordered by mass; [idxs] points into [seqs] and
    [var_idxs]. *)
Record DecoyPeptides : Type := mkDecoyPeptides {
  dp_seqs : list string;
  dp_var_idxs : list (list nat);
  dp_idxs : list nat;
  dp_mods : list (list ModSite);
  dp_masses : list Q
}.

(** [VarPTMs(masses, max_mass, min_mass)]; [masses] is a dict, iterated in
    insertion order. *)
Record VarPTMs : Type := mkVarPTMs {
  vp_masses : list (string * list Q);
  vp_max_mass : Q;
  vp_min_mass : Q
}.

(** ** [match_decoys] *)

(** Lines 89-92: the bounds of the scanned window of a tier-1 query. *)
Definition tier1_window (slices : Slices) (pep_mass : Q) : option (nat * nat) :=
  start <- py_getitem (sl_idxs slices)
             (Z.of_nat (bisect_left (sl_bounds slices) (pep_mass - 1))) ;;
  stop <- py_getitem (sl_idxs slices)
            (Z.min (Z.of_nat (bisect_left (sl_bounds slices) (pep_mass + 1)))
                   (Z.of_nat (length (sl_idxs slices)) - 1)) ;;
  Some (start, stop).

(** Lines 95-99: the pool positions of the window whose mass is within the
    tolerance. *)
Definition tier1_seq_idxs (masses : list Q) (start stop : nat) (pep_mass tol : Q)
  : list nat :=
  map (fun i => (i + start)%nat)
      (nonzero (map (fun x => Qleb x (pep_mass + tol) && Qleb (pep_mass - tol) x)
                    (py_slice masses start stop))).

(** Lines 89-99: the slice-based range retrieval of tier 1. *)
Definition tier1_retrieval (masses : list Q) (slices : Slices)
    (pep_mass tol : Q) : option (list nat) :=
  w <- tier1_window slices pep_mass ;;
  Some (tier1_seq_idxs masses (fst w) (snd w) pep_mass tol).

Definition tier1 (decoys : DecoyPeptides) (slices : Slices)
    (pep_mass tol : Q) (charge : Z) : option (list Peptide) :=
  seq_idxs <- tier1_retrieval (dp_masses decoys) slices pep_mass tol ;;
  mapM (fun idx =>
          si <- nth_error (dp_idxs decoys) idx ;;
          s <- nth_error (dp_seqs decoys) si ;;
          m <- nth_error (dp_mods decoys) idx ;;
          Some (mkPeptide s charge m))
       seq_idxs.

(** Lines 108-113: the window of the variable-PTM tier. *)
Definition tier2_window (slices : Slices) (var_ptms : VarPTMs) (pep_mass : Q)
  : option (nat * nat) :=
  start <- py_getitem (sl_idxs slices)
             (Z.max (Z.of_nat (bisect_left (sl_bounds slices)
                                 (pep_mass - vp_max_mass var_ptms - 1)) - 1) 0) ;;
  stop <- py_getitem (sl_idxs slices)
            (Z.min (Z.of_nat (bisect_left (sl_bounds slices)
                                (pep_mass - vp_min_mass var_ptms + 1)))
                   (Z.of_nat (length (sl_idxs slices)) - 1)) ;;
  Some (start, stop).

(** Lines 124-137: the candidates of one residue and one mass. *)
Definition tier2_mass (r_mods : list (list ModSite)) (r_masses : list Q)
    (r_seqs : list string) (r_var_idxs : list (list nat))
    (pep_mass tol : Q) (charge : Z) (res : string) (mass : Q)
  : option (list Peptide) :=
  let seq_idxs :=
    nonzero (map (fun x => Qleb (pep_mass - tol - mass) x &&
                           Qleb x (pep_mass + tol - mass)) r_masses) in
  seq_res_idxs <-
    mapM (fun ii =>
            vi <- nth_error r_var_idxs ii ;;
            hits <- mapM (fun jj =>
                            s <- nth_error r_seqs ii ;;
                            c <- String.get jj s ;;
                            Some (jj, String.eqb (String c EmptyString) res)) vi ;;
            Some (map (fun h => (ii, fst h)) (filter snd hits)))
         seq_idxs ;;
  mapM (fun ij =>
          s <- nth_error r_seqs (fst ij) ;;
          m <- nth_error r_mods (fst ij) ;;
          Some (mkPeptide s charge
                  (m ++ [mkModSite (Some mass) (SiteIdx (snd ij + 1)) None])))
       (concat seq_res_idxs).

Definition tier2 (decoys : DecoyPeptides) (slices : Slices) (var_ptms : VarPTMs)
    (pep_mass tol : Q) (charge : Z) : option (list Peptide) :=
  w <- tier2_window slices var_ptms pep_mass ;;
  let r_mods := py_slice (dp_mods decoys) (fst w) (snd w) in
  let r_masses := py_slice (dp_masses decoys) (fst w) (snd w) in
  r_seqs <- mapM (nth_error (dp_seqs decoys))
                 (py_slice (dp_idxs decoys) (fst w) (snd w)) ;;
  r_var_idxs <- mapM (nth_error (dp_var_idxs decoys))
                     (py_slice (dp_idxs decoys) (fst w) (snd w)) ;;
  per_mass <-
    mapM (fun rm => tier2_mass r_mods r_masses r_seqs r_var_idxs
                      pep_mass tol charge (fst rm) (snd rm))
         (flat_map (fun rms => map (fun mass => (fst rms, mass)) (snd rms))
                   (vp_masses var_ptms)) ;;
  Some (concat per_mass).

(** The body of the loop over the charge hypotheses. *)
Definition match_decoys_charge (peptide_mz : Q) (decoys : DecoyPeptides)
    (slices : Slices) (var_ptms : VarPTMs) (tol_factor : Q) (charge : Z)
  : option (list Peptide) :=
  let pep_mass := peptide_mz * inject_Z charge in
  let tol := tol_factor * inject_Z charge in
  c1 <- tier1 decoys slices pep_mass tol charge ;;
  c2 <- tier2 decoys slices var_ptms pep_mass tol charge ;;
  Some (c1 ++ c2).

Definition match_decoys (peptide_mz : Q) (decoys : DecoyPeptides)
    (slices : Slices) (var_ptms : VarPTMs) (tol_factor : Q)
  : option (list Peptide) :=
  per_charge <- mapM (match_decoys_charge peptide_mz decoys slices var_ptms
                        tol_factor) [2; 3; 4]%Z ;;
  Some (concat per_charge).

(** The naive retrieval the index is meant to agree with: a linear scan of
    the whole mass array. *)
Definition naive_scan (masses : list Q) (pep_mass tol : Q) : list nat :=
  nonzero (map (fun x => Qleb x (pep_mass + tol) && Qleb (pep_mass - tol) x)
               masses).

(** ** Builtins used by the orchestration *)

(** [max(l, key=key)]: the first element with the greatest key;
    [ValueError] on an empty sequence. *)
Fixpoint max_by_from {A : Type} (key : A -> Q) (best : A) (l : list A) : A :=
  match l with
  | [] => best
  | x :: l' =>
      if Qltb (key best) (key x) then max_by_from key x l'
      else max_by_from key best l'
  end.

Definition py_max_by {A : Type} (key : A -> Q) (l : list A) : option A :=
  match l with
  | [] => None
  | x :: l' => Some (max_by_from key x l')
  end.

Definition py_max (l : list Q) : option Q := py_max_by (fun x => x) l.

(** [min(l)]: the first least element; [ValueError] on an empty sequence. *)
Definition py_min (l : list Q) : option Q := py_max_by Qopp l.

(** [l.index(x)]: the first position holding a value equal to [x]. *)
Fixpoint py_index {A : Type} (eqb : A -> A -> bool) (x : A) (l : list A)
  : option nat :=
  match l with
  | [] => None
  | y :: l' => if eqb y x then Some 0%nat else option_map S (py_index eqb x l')
  end.

(** [l.remove(x)]: drops the first occurrence, [ValueError] if there is none. *)
Fixpoint py_remove (x : string) (l : list string) : option (list string) :=
  match l with
  | [] => None
  | y :: l' => if String.eqb y x then Some l'
               else option_map (cons y) (py_remove x l')
  end.

Definition str_in (x : string) (l : list string) : bool :=
  existsb (String.eqb x) l.

(** [d.get(k, None)] and [k in d] on a dict given by its items. *)
Fixpoint dict_get {V : Type} (d : list (string * V)) (k : string) : option V :=
  match d with
  | [] => None
  | (k', v) :: d' => if String.eqb k' k then Some v else dict_get d' k
  end.

(** [sum(l)] on floats. *)
Definition Qsum (l : list Q) : Q := fold_left Qplus l 0.

(** [itertools.combinations(l, r)]: the [r]-element subsequences of [l], in
    lexicographic order of their positions. *)
Fixpoint combinations {A : Type} (l : list A) (r : nat) : list (list A) :=
  match r, l with
  | O, _ => [[]]
  | S _, [] => []
  | S r', x :: l' => map (cons x) (combinations l' r') ++ combinations l' r
  end.

(** [sorted(range(n), key=key, reverse=True)]: descending keys, positions
    with equal keys in their original order (Python's sort is stable, also
    when reversed). *)
Fixpoint insert_desc (key : nat -> nat) (k : nat) (l : list nat) : list nat :=
  match l with
  | [] => [k]
  | h :: t => if (key k <? key h)%nat then h :: insert_desc key k t else k :: l
  end.

Definition sorted_desc (key : nat -> nat) (l : list nat) : list nat :=
  fold_right (insert_desc key) [] l.

(** ** The configuration and the tables of a run ([self]) *)

(** [readers.Modification(name, mono)]; the UniProt table has entries
    without a mass. *)
Record Modification : Type := mkModification {
  mod_name : string;
  mod_mono : option Q
}.

(** The constants of [constants.py] the engine reads. *)
Record Constants : Type := mkConstants {
  H2O : Q;                     (* FIXED_MASSES["H2O"] *)
  AA_MASSES : string -> Q;     (* AA_MASSES[res].mono *)
  RESIDUES : list string
}.

(** The fields of a [Validate] object the engine reads. [unimod_get_mass]
    is [self.unimod.get_mass] ([PTMDB.get_mass] of [readers.py]) on a
    modification name: [Some (Some m)] when it returns the mass [m],
    [Some None] when it returns [None] because neither name field nor the
    description index resolves the name, and [None] when it raises (the
    [KeyError] of [parse_mod_formula] on a formula with an unknown
    element). [mod_mass] is the mass that [validate] assigns on line 324
    before the engine runs; [decoy_db] is the [Sequence] column of the file
    at [self.decoy_db_path]. *)
Record Validate : Type := mkValidate {
  fixed_residues : list (string * string);
  unimod_get_mass : string -> option (option Q);
  uniprot : list (string * list Modification);
  target_mod : string;
  mod_mass : Q;
  decoy_db : list string
}.

(** ** The variable-PTM table (lines 532-540) *)

(** The filter of the set comprehension:
    [m[1] is not None and abs(m[1]) <= 100]. *)
Definition usable_masses (mods : list Modification) : list Q :=
  flat_map (fun m => match mod_mono m with
                     | Some x => if Qleb (Qabs x) 100 then [x] else []
                     | None => []
                     end) mods.

(** [float_set] is the order in which [list({...})] yields the distinct
    masses. *)
Definition var_ptm_masses (float_set : list Q -> list Q)
    (uniprot : list (string * list Modification)) (fixed_aas : list string)
  : list (string * list Q) :=
  map (fun rm => (fst rm, float_set (usable_masses (snd rm))))
      (filter (fun rm => negb (str_in (fst rm) fixed_aas)) uniprot).

Definition make_var_ptms (float_set : list Q -> list Q)
    (uniprot : list (string * list Modification)) (fixed_aas : list string)
  : option VarPTMs :=
  let table := var_ptm_masses float_set uniprot fixed_aas in
  maxes <- mapM (fun rm => py_max (snd rm)) table ;;
  var_ptm_max <- py_max maxes ;;
  mins <- mapM (fun rm => py_min (snd rm)) table ;;
  var_ptm_min <- py_min mins ;;
  Some (mkVarPTMs table var_ptm_max var_ptm_min).

(** Lines 507-515: the residues bearing fixed modifications. When ["nterm"]
    is absent the [ValueError] of the first [remove] skips the second. *)
Definition make_fixed_aas (self : Validate) (target_res : option string)
  : list string :=
  let fixed_aas := map fst (fixed_residues self) ++
                   match target_res with Some r => [r] | None => [] end in
  match py_remove "nterm" fixed_aas with
  | None => fixed_aas
  | Some l1 =>
      match py_remove "cterm" l1 with
      | None => l1
      | Some l2 => l2
      end
  end.

(** ** [Validate.gen_fixed_mods] and [Validate.modify_decoys] *)

(** The modification sites are built in the order of the source: the
    N-terminus first, then the residues from left to right. A lookup that
    returns [None] yields a site without a mass; a lookup that raises ends
    the call. *)
Definition gen_fixed_mods (self : Validate) (seq : string)
  : option (list ModSite) :=
  nterm <-
    match dict_get (fixed_residues self) "nterm" with
    | Some nterm_mod =>
        mass <- unimod_get_mass self nterm_mod ;;
        Some [mkModSite mass SiteNterm (Some nterm_mod)]
    | None => Some []
    end ;;
  per_res <-
    mapM (fun ir =>
            match dict_get (fixed_residues self) (snd ir) with
            | Some mod_name =>
                mass <- unimod_get_mass self mod_name ;;
                Some [mkModSite mass (SiteIdx (fst ir + 1)) (Some mod_name)]
            | None => Some []
            end)
         (enumerate (chars seq)) ;;
  Some (nterm ++ concat per_res).

(** [sum(ms.mass for ms in mods)]: the additions start from 0 and run from
    left to right; a site without a mass raises [TypeError]. *)
Definition sum_masses (mods : list ModSite) : option Q :=
  foldM (fun acc ms => match ms_mass ms with
                       | Some m => Some (acc + m)
                       | None => None
                       end)
        mods 0.

(** Lines 712-714 (and 682-684): the mass of a sequence with its fixed
    modifications: water, the residue masses and the modification masses. *)
Definition fixed_mass (K : Constants) (seq : string) (mods : list ModSite)
  : option Q :=
  fixed <- sum_masses mods ;;
  Some (H2O K + Qsum (map (AA_MASSES K) (chars seq)) + fixed).

(** The position subsets of one sequence, in the order of the two inner
    loops: sizes [1 .. min(len(target_idxs), 3)], each size in the order of
    [itertools.combinations]. *)
Definition target_subsets (target_idxs : list nat) : list (list nat) :=
  flat_map (fun jj => combinations target_idxs (jj + 1))
           (seq 0 (Nat.min (length target_idxs) 3)).

(** The body of the loop over the sequences: the (index, mods, mass)
    triples appended for sequence [ii]. The fixed modifications and the
    mass are computed first, for every sequence; then [res_idxs[ii]] is
    read, and a shorter [res_idxs] raises. *)
Definition modify_decoy (K : Constants) (self : Validate)
    (res_idxs : list (list nat)) (ii : nat) (seq : string)
  : option (list (nat * list ModSite * Q)) :=
  mods <- gen_fixed_mods self seq ;;
  mass <- fixed_mass K seq mods ;;
  target_idxs <- nth_error res_idxs ii ;;
  Some (map (fun idxs =>
               (ii,
                mods ++ map (fun kk => mkModSite (Some (mod_mass self))
                                         (SiteIdx (kk + 1))
                                         (Some (target_mod self))) idxs,
                mass + mod_mass self * inject_Z (Z.of_nat (length idxs))))
            (target_subsets target_idxs)).

Definition modify_decoys (K : Constants) (self : Validate)
    (seqs : list string) (res_idxs : list (list nat))
  : option (list nat * list (list ModSite) * list Q) :=
  per_seq <- mapM (fun iseq =>
                     modify_decoy K self res_idxs (fst iseq) (snd iseq))
                  (enumerate seqs) ;;
  let rows := concat per_seq in
  Some (map (fun r => fst (fst r)) rows,
        map (fun r => snd (fst r)) rows,
        map snd rows).

(** ** The decoy pool: [get_decoys] and [Validate._generate_residue_decoys] *)

(** The orders in which the sets of the source are iterated. [decoy_set l]
    is the sequence that iterating [set(l)] yields for the decoy sequences
    of line 68 and [pep_set] the one for the peptide strings of line 550
    (for strings the order changes with the hash seed of the process);
    [float_set] and [charge_set] are those of the mass sets of line 533 and
    of the charge states of line 562. *)
Record SetOrder : Type := mkSetOrder {
  decoy_set : list string -> list string;
  pep_set : list string -> list string;
  float_set : list Q -> list Q;
  charge_set : list Z -> list Z
}.

(** A set is iterated once per distinct element. *)
Definition set_order_ok (o : SetOrder) : Prop :=
  (forall l, NoDup (decoy_set o l) /\ forall x, In x (decoy_set o l) <-> In x l) /\
  (forall l, NoDup (pep_set o l) /\ forall x, In x (pep_set o l) <-> In x l) /\
  (forall l, forall x, In x (float_set o l) <-> In x l) /\
  (forall l, NoDup (charge_set o l) /\ forall x, In x (charge_set o l) <-> In x l).

(** The filter of [get_decoys]; [residue] is a single residue letter, so
    [residue in seq] asks for one of the characters of [seq]. *)
Definition decoy_ok (K : Constants) (residue : option string) (seq : string)
  : bool :=
  match residue with
  | None => true
  | Some r => str_in r (chars seq)
  end &&
  (7 <=? String.length seq)%nat &&
  forallb (fun c => str_in c (RESIDUES K)) (chars seq).

Definition get_decoys (o : SetOrder) (K : Constants) (rows : list string)
    (residue : option string) : list string :=
  decoy_set o (filter (decoy_ok K residue) rows).

Fixpoint insert_by_mass (r : Q * nat * list ModSite)
    (l : list (Q * nat * list ModSite)) : list (Q * nat * list ModSite) :=
  match l with
  | [] => [r]
  | h :: t => if Qltb (fst (fst h)) (fst (fst r))
              then h :: insert_by_mass r t
              else r :: l
  end.

(** Modelled from the spec: [utilities.sort_lists] is not part of the
    sources at hand. The call site sorts the masses, indices and
    modifications according to the sequence mass, and section 3 asks for a
    non-decreasing mass array in which every pool entry keeps its index and
    modifications: a stable sort of the rows by mass. *)
Definition sort_lists (masses : list Q) (idxs : list nat)
    (mods : list (list ModSite)) : list Q * list nat * list (list ModSite) :=
  let rows := fold_right insert_by_mass [] (combine (combine masses idxs) mods) in
  (map (fun r => fst (fst r)) rows,
   map (fun r => snd (fst r)) rows,
   map snd rows).

(** The positions of a sequence whose residue satisfies [keep]. *)
Definition residue_idxs (keep : string -> bool) (seq : string) : list nat :=
  map fst (filter (fun ir => keep (snd ir)) (enumerate (chars seq))).

Definition _generate_residue_decoys (o : SetOrder) (K : Constants)
    (self : Validate) (target_res : option string) (fixed_aas : list string)
  : option DecoyPeptides :=
  let seqs := get_decoys o K (decoy_db self) target_res in
  let var_idxs :=
    map (residue_idxs (fun res => negb (str_in res fixed_aas))) seqs in
  rows <-
    match target_res with
    | Some tr =>
        modify_decoys K self seqs
          (map (residue_idxs (fun res => String.eqb res tr)) seqs)
    | None =>
        fixed <- mapM (fun s =>
                         _mods <- gen_fixed_mods self s ;;
                         mass <- fixed_mass K s _mods ;;
                         Some (_mods, mass))
                      seqs ;;
        Some (seq 0 (length seqs), map fst fixed, map snd fixed)
    end ;;
  let sorted := sort_lists (snd rows) (fst (fst rows)) (snd (fst rows)) in
  Some (mkDecoyPeptides seqs var_idxs (snd (fst sorted)) (snd sorted)
          (fst (fst sorted))).

(** ** [Validate._generate_decoy_matches] *)

Fixpoint list_set {A : Type} (l : list A) (i : nat) (x : A) : list A :=
  match l, i with
  | [], _ => []
  | _ :: t, O => x :: t
  | h :: t, S i' => h :: list_set t i' x
  end.

(** Lines 589-593: the tight pass, replaced by the wide pass when it yields
    fewer than 1000 candidates. *)
Definition search_candidates (match_fn : Q -> Q -> option (list Peptide))
    (pep_mz : Q) : option (list Peptide) :=
  d_candidates <- match_fn pep_mz (1 # 100) ;;
  if (length d_candidates <? 1000)%nat
  then match_fn pep_mz (1 # 10)
  else Some d_candidates.

Section DecoyAssigner.

(** The feature record of a match (a dict in the source), its equality and
    its ["MatchScore"] entry. *)
Variable Features : Type.
Variable features_eqb : Features -> Features -> bool.
Variable MatchScore : Features -> Q.

(** [psm.DecoyID(seq, charge, mods, features)]. *)
Record DecoyID : Type := mkDecoyID {
  did_seq : string;
  did_charge : Z;
  did_mods : list ModSite;
  did_features : Features
}.

(** The attributes of [psm.PSM] the engine reads, and [decoy_id], the one
    it writes. *)
Record PSM : Type := mkPSM {
  psm_seq : string;
  psm_mods : list ModSite;
  psm_charge : Z;
  psm_spectrum : option Spectrum;
  psm_decoy_id : option DecoyID
}.

Definition set_decoy_id (p : PSM) (d : DecoyID) : PSM :=
  mkPSM (psm_seq p) (psm_mods p) (psm_charge p) (psm_spectrum p) (Some d).

(** The functions of the modules that are consumed through their
    interface: [peptides.merge_seq_mods], [peptides.calculate_mz],
    [peptides.get_by_ion_mzs], [Spectrum.max_intensity] and
    [decoy_features] (the features of [PSM.extract_features]). *)
Record Collaborators : Type := mkCollaborators {
  merge_seq_mods : string -> list ModSite -> string;
  calculate_mz : string -> list ModSite -> Z -> Q;
  get_by_ion_mzs : Peptide -> list Q;
  max_intensity : Spectrum -> Q;
  decoy_features : Peptide -> Spectrum -> option string -> Features
}.

Variable C : Collaborators.

(** Lines 600-613: rank the candidates by matched ions and keep the first
    1000. *)
Definition prefilter (max_spec : Spectrum) (d_candidates : list Peptide)
  : option (list Peptide) :=
  cand_num_ions <-
    mapM (fun c => count_matched_ions (get_by_ion_mzs C) c max_spec)
         d_candidates ;;
  let sorted_idxs :=
    sorted_desc (fun k => nth k cand_num_ions 0%nat)
                (seq 0 (length cand_num_ions)) in
  mapM (nth_error d_candidates) (firstn 1000 sorted_idxs).

(** The test of lines 630-632. *)
Definition improves (current : option DecoyID) (max_match : Features) : bool :=
  match current with
  | None => true
  | Some d => Qltb (MatchScore (did_features d)) (MatchScore max_match)
  end.

(** Lines 617-636: the body of the loop over the spectra of a group. *)
Definition assign_spectrum (target : option string)
    (d_candidates : list Peptide) (psms : list PSM)
    (entry : Spectrum * Q * nat) : option (list PSM) :=
  let spec := fst (fst entry) in
  let idx := snd entry in
  let dpsm_vars :=
    map (fun c => decoy_features C c spec target) d_candidates in
  max_match <- py_max_by MatchScore dpsm_vars ;;
  psm <- nth_error psms idx ;;
  if improves (psm_decoy_id psm) max_match
  then
    pos <- py_index features_eqb max_match dpsm_vars ;;
    d_peptide <- nth_error d_candidates pos ;;
    Some (list_set psms idx
            (set_decoy_id psm
               (mkDecoyID (pep_seq d_peptide) (pep_charge d_peptide)
                          (pep_mods d_peptide) max_match)))
  else Some psms.

(** The spectra of a group: [(spectrum, max_intensity, idx)] for the PSMs
    that have a spectrum. *)
Definition group_spectra (psms : list PSM) (charge_pep_idxs : list nat)
  : option (list (Spectrum * Q * nat)) :=
  entries <-
    mapM (fun idx =>
            p <- nth_error psms idx ;;
            Some (match psm_spectrum p with
                  | Some s => [(s, max_intensity C s, idx)]
                  | None => []
                  end))
         charge_pep_idxs ;;
  Some (concat entries).

(** Lines 564-636: the body of the loop over the charge states. *)
Definition process_charge (target : option string)
    (match_fn : Q -> Q -> option (list Peptide))
    (pep_idxs : list nat) (mods : list ModSite)
    (psms : list PSM) (charge : Z) : option (list PSM) :=
  charges <- mapM (fun jj => p <- nth_error psms jj ;; Some (psm_charge p))
                  pep_idxs ;;
  let charge_pep_idxs :=
    map fst (filter (fun jc => Z.eqb (snd jc) charge)
                    (combine pep_idxs charges)) in
  first <- nth_error charge_pep_idxs 0 ;;
  first_psm <- nth_error psms first ;;
  let pep_mz := calculate_mz C (psm_seq first_psm) mods charge in
  spectra <- group_spectra psms charge_pep_idxs ;;
  match py_max_by (fun e => snd (fst e)) spectra with
  | None => Some psms
  | Some best =>
      let max_spec := fst (fst best) in
      d_candidates <- search_candidates match_fn pep_mz ;;
      match d_candidates with
      | [] => Some psms
      | _ :: _ =>
          top <- prefilter max_spec d_candidates ;;
          foldM (assign_spectrum target top) spectra psms
      end
  end.

(** Lines 552-636: the body of the loop over the distinct peptides. *)
Definition process_peptide (o : SetOrder) (target : option string)
    (match_fn : Q -> Q -> option (list Peptide))
    (pep_strs : list string) (psms : list PSM) (peptide : string)
  : option (list PSM) :=
  let pep_idxs :=
    map fst (filter (fun ip => String.eqb (snd ip) peptide)
                    (enumerate pep_strs)) in
  first <- nth_error pep_idxs 0 ;;
  first_psm <- nth_error psms first ;;
  let mods := psm_mods first_psm in
  charges <- mapM (fun idx => p <- nth_error psms idx ;; Some (psm_charge p))
                  pep_idxs ;;
  foldM (process_charge target match_fn pep_idxs mods)
        (charge_set o charges) psms.

(** Lines 546-638, for a built pool: the loop over the peptides. *)
Definition assign_decoys (o : SetOrder) (target : option string)
    (match_fn : Q -> Q -> option (list Peptide)) (psms : list PSM)
  : option (list PSM) :=
  let pep_strs :=
    map (fun p => merge_seq_mods C (psm_seq p) (psm_mods p)) psms in
  foldM (process_peptide o target match_fn pep_strs)
        (pep_set o pep_strs) psms.

(** The whole method: the pool, its slices (one per 500 masses), the
    variable-PTM table, then the loop. *)
Definition _generate_decoy_matches (o : SetOrder) (K : Constants)
    (self : Validate) (target_res : option string) (psms : list PSM)
  : option (list PSM) :=
  let fixed_aas := make_fixed_aas self target_res in
  decoys <- _generate_residue_decoys o K self target_res fixed_aas ;;
  let slices :=
    slice_list (dp_masses decoys) (length (dp_masses decoys) / 500) in
  var_ptms <- make_var_ptms (float_set o) (uniprot self) fixed_aas ;;
  assign_decoys o
    (match target_res with
     | Some _ => Some (target_mod self)
     | None => None
     end)
    (fun peptide_mz tol_factor =>
       match_decoys peptide_mz decoys slices var_ptms tol_factor)
    psms.

End DecoyAssigner.

Arguments mkDecoyID {Features}.
Arguments did_seq {Features}.
Arguments did_charge {Features}.
Arguments did_mods {Features}.
Arguments did_features {Features}.
Arguments mkPSM {Features}.
Arguments psm_seq {Features}.
Arguments psm_mods {Features}.
Arguments psm_charge {Features}.
Arguments psm_spectrum {Features}.
Arguments psm_decoy_id {Features}.
Arguments set_decoy_id {Features}.
Arguments mkCollaborators {Features}.
Arguments merge_seq_mods {Features}.
Arguments calculate_mz {Features}.
Arguments get_by_ion_mzs {Features}.
Arguments max_intensity {Features}.
Arguments decoy_features {Features}.
Arguments prefilter {Features}.
Arguments improves {Features}.
Arguments assign_spectrum {Features}.
Arguments group_spectra {Features}.
Arguments process_charge {Features}.
Arguments process_peptide {Features}.
Arguments assign_decoys {Features}.
Arguments _generate_decoy_matches {Features}.

(** ** Notions used to state the properties *)

(** The list is non-decreasing, read through its positions. *)
Definition nondecreasing (a : list Q) : Prop :=
  forall i j, (i <= j < length a)%nat -> nth i a 0 <= nth j a 0.

(** Whether a peak counts as matched: a theoretical ion within 0.2 on
    either side of its insertion point. *)
Definition peak_hit (ion_mzs : list Q) (mz : Q) : bool :=
  let idx := bisect_left ion_mzs mz in
  ((0 <? idx)%nat && Qleb (mz - nth (idx - 1) ion_mzs 0) (2 # 10)) ||
  ((idx <? length ion_mzs)%nat && Qleb (nth idx ion_mzs 0 - mz) (2 # 10)).

(** The binomial coefficient, by Pascal's rule. *)
Fixpoint binom (n k : nat) : nat :=
  match n, k with
  | _, O => 1
  | O, S _ => 0
  | S n', S k' => binom n' k' + binom n' k
  end.

(** [s] is [l] with some entries left out. *)
Inductive subseq {A : Type} : list A -> list A -> Prop :=
| subseq_nil : subseq [] []
| subseq_skip (x : A) (s l : list A) : subseq s l -> subseq s (x :: l)
| subseq_take (x : A) (s l : list A) : subseq s l -> subseq (x :: s) (x :: l).

(** The target modification at each of the 0-based positions [idxs]. *)
Definition target_sites (self : Validate) (idxs : list nat) : list ModSite :=
  map (fun kk => mkModSite (Some (mod_mass self)) (SiteIdx (kk + 1))
                   (Some (target_mod self))) idxs.

(** The mass of the fixed modification configured under [key] (a residue
    or ["nterm"]); 0 when the configuration has none for it. *)
Definition fixed_mod_mass (self : Validate) (key : string) : Q :=
  match dict_get (fixed_residues self) key with
  | Some mod_name =>
      match unimod_get_mass self mod_name with
      | Some (Some m) => m
      | _ => 0
      end
  | None => 0
  end.

(** The fixed modification configured under [key], if there is one,
    resolves to a mass in the Unimod table. *)
Definition resolves (self : Validate) (key : string) : bool :=
  match dict_get (fixed_residues self) key with
  | Some mod_name =>
      match unimod_get_mass self mod_name with
      | Some (Some _) => true
      | _ => false
      end
  | None => true
  end.

(** Every fixed modification that applies to [seq] (that of the
    N-terminus and those of its residues) resolves to a mass. *)
Definition fixed_resolved (self : Validate) (seq : string) : bool :=
  resolves self "nterm" && forallb (resolves self) (chars seq).

(** ** A small run, used to evaluate the model *)

(** Water, a mass table giving every residue 100, the standard residues. *)
Definition K0 : Constants :=
  mkConstants (18010565 # 1000000) (fun _ => 100)
    ["A"; "C"; "D"; "E"; "F"; "G"; "H"; "I"; "K"; "L"; "M"; "N"; "P"; "Q";
     "R"; "S"; "T"; "V"; "W"; "Y"]%string.

(** No fixed modification, a phosphorylation-like target modification. *)
Definition phospho_run : Validate :=
  mkValidate [] (fun _ => Some None) [] "Phospho" (799663 # 10000)
    ["PEPTIDEK"; "AAPEPTIDE"]%string.

(** A Unimod table that holds the carbamidomethylation and the iTRAQ
    8-plex label, and resolves no other name. *)
Definition unimod_two (name : string) : option (option Q) :=
  if String.eqb name "Carbamidomethyl" then Some (Some (57021464 # 1000000))
  else if String.eqb name "iTRAQ8plex" then Some (Some (304205360 # 1000000))
  else Some None.

(** Cysteine carries a carbamidomethylation and the N-terminus the label;
    the target modification is a phosphorylation. *)
Definition labelled_run : Validate :=
  mkValidate [("nterm", "iTRAQ8plex"); ("C", "Carbamidomethyl")]%string
    unimod_two [] "Phospho" (799663 # 10000)
    ["TCTPTTK"; "PEPTIDEK"; "AACCAAK"]%string.

(** The configuration names the fixed modification of cysteine by a name
    that the table does not hold. *)
Definition misspelt_run : Validate :=
  mkValidate [("C", "Carbamidomethylation")]%string
    unimod_two [] "Phospho" (799663 # 10000) ["PEPTCDEK"]%string.

(** A pool of 500 decoys with the masses 1000, 1001, ..., 1499: one slice. *)
Definition pool_masses : list Q :=
  map (fun i => inject_Z (Z.of_nat (1000 + i))) (seq 0 500).

Definition pool_slices : Slices :=
  slice_list pool_masses (length pool_masses / 500).

(** A pool of 500 decoys with the masses 1000, ..., 1498 and 5000: one
    slice again, and every charge hypothesis of a light precursor stays
    below its bound. *)
Definition wide_pool_masses : list Q :=
  map (fun i => inject_Z (Z.of_nat (1000 + i))) (seq 0 499) ++ [5000].

Definition wide_pool_slices : Slices :=
  slice_list wide_pool_masses (length wide_pool_masses / 500).

(** The variable-PTM table with the acetylation of lysine alone. *)
Definition acetyl_ptms : VarPTMs :=
  mkVarPTMs [("K"%string, [420106 # 10000])] (420106 # 10000) (420106 # 10000).

(** A UniProt table in which lysine has an acetylation (42.0106) and serine
    only an entry without a mass and one heavier than 100. *)
Definition uniprot_gap : list (string * list Modification) :=
  [("K"%string, [mkModification "N6-acetyllysine" (Some (420106 # 10000))]);
   ("S"%string, [mkModification "O-linked (GlcNAc) serine" (Some (2030794 # 10000));
                 mkModification "Phosphoserine" None])].

(** The run of [phospho_run] with the UniProt table [uniprot_gap]. *)
Definition gap_run : Validate :=
  mkValidate [] (fun _ => Some None) uniprot_gap "Phospho" (799663 # 10000)
    ["PEPTIDEK"; "AAPEPTIDE"]%string.

(** Sets iterated in the order of first insertion. *)
Definition first_seen : SetOrder :=
  mkSetOrder (nodup string_dec) (nodup string_dec) (fun l => l)
    (nodup Z.eq_dec).

(** ** Notions used to state the properties of the assignment *)

Section AssignmentNotions.

Variable Features : Type.
Variable MatchScore : Features -> Q.

(** What the engine reads of a PSM and never writes. *)
Definition psm_static (p : PSM Features)
  : string * list ModSite * Z * option Spectrum :=
  (psm_seq p, psm_mods p, psm_charge p, psm_spectrum p).

(** An assignment is kept, or replaced by one with a strictly greater
    ["MatchScore"]. *)
Definition not_displaced (before after : option (DecoyID Features)) : Prop :=
  match before with
  | None => True
  | Some d =>
      exists d', after = Some d' /\
                 (d' = d \/
                  MatchScore (did_features d) < MatchScore (did_features d'))
  end.

Definition psm_step (p p' : PSM Features) : Prop :=
  psm_static p = psm_static p' /\
  not_displaced (psm_decoy_id p) (psm_decoy_id p').

End AssignmentNotions.

Arguments psm_static {Features}.
Arguments not_displaced {Features}.
Arguments psm_step {Features}.

(** The PSM [p'] is [p], or [p] with a decoy made of the sequence, charge
    and modifications of a candidate of [pool]. *)
Definition assigned_from {Features : Type} (pool : list Peptide)
    (p p' : PSM Features) : Prop :=
  p' = p \/
  exists c f,
    In c pool /\
    p' = set_decoy_id p (mkDecoyID (pep_seq c) (pep_charge c) (pep_mods c) f).

(** Lines 567-568: the PSMs of a peptide that carry the charge. *)
Definition charge_pep_idxs {Features : Type} (psms : list (PSM Features))
    (pep_idxs : list nat) (charge : Z) : list nat :=
  filter (fun jj => match nth_error psms jj with
                    | Some p => Z.eqb (psm_charge p) charge
                    | None => false
                    end) pep_idxs.

Definition no_peptide : Peptide := mkPeptide "" 0 [].

(** ** A run with a tie: four candidates, the first and the last with
    ["MatchScore"] 7, the others with 5; against the spectrum with peaks at
    100 and 200 the first matches one ion and the last two. *)

Definition cand (s : string) : Peptide := mkPeptide s 2 [].

Definition tie_candidates : list Peptide :=
  [cand "AAAAAAK"; cand "CCCCCCK"; cand "DDDDDDK"; cand "EEEEEEK"].

Definition tie_collab : Collaborators Q :=
  mkCollaborators
    (fun s _ => s)
    (fun _ _ _ => 500)
    (fun c => if String.eqb (pep_seq c) "AAAAAAK" then [100]
              else if String.eqb (pep_seq c) "EEEEEEK" then [100; 200]
              else [])
    (fun s => match py_max (spec_intensity s) with Some x => x | None => 0 end)
    (fun c _ _ => if String.eqb (pep_seq c) "AAAAAAK" then 7
                  else if String.eqb (pep_seq c) "EEEEEEK" then 7
                  else 5).

Definition tie_spectrum : Spectrum := mkSpectrum [100; 200] [10; 20].

Definition tie_psms : list (PSM Q) :=
  [mkPSM "TARGETK" [] 2 (Some tie_spectrum) None].

(** A search whose tight pass (factor 0.01) finds the candidate scored 7
    alone and whose wide pass finds two candidates scored 5. *)
Definition narrow_then_wide (peptide_mz tol_factor : Q)
  : option (list Peptide) :=
  if Qeq_bool tol_factor (1 # 100)
  then Some [cand "AAAAAAK"]
  else Some [cand "CCCCCCK"; cand "DDDDDDK"].

(** Position [a] is ranked before position [b]: more matched ions, or as
    many and generated earlier. *)
Definition ranked_before (key : nat -> nat) (a b : nat) : Prop :=
  (key b < key a)%nat \/ (key a = key b /\ (a < b)%nat).

(** The matched-ion counts the prefilter ranks the candidates by. *)
Definition ion_counts {Features : Type} (C : Collaborators Features)
    (max_spec : Spectrum) (d_candidates : list Peptide) : list nat :=
  map (fun c => length (filter (peak_hit (get_by_ion_mzs C c))
                               (spec_mz max_spec)))
      d_candidates.

(** The PSM of the run with a tie, already holding a decoy scored 7. *)
Definition tie_psms_assigned : list (PSM Q) :=
  [mkPSM "TARGETK" [] 2 (Some tie_spectrum)
     (Some (mkDecoyID "WWWWWWK" 2 [] 7))].

(** ** The assignment loop as a list of updates *)

Section Plans.

Variable Features : Type.
Variable features_eqb : Features -> Features -> bool.
Variable MatchScore : Features -> Q.
Variable C : Collaborators Features.

(** The winner found for the PSM at a position: its features and the
    candidate. *)
Definition Update : Type := (nat * (Features * Peptide))%type.

(** Lines 630-636 for one winner. *)
Definition apply_update (st : list (PSM Features)) (u : Update)
  : list (PSM Features) :=
  match nth_error st (fst u) with
  | Some psm =>
      if improves MatchScore (psm_decoy_id psm) (fst (snd u))
      then list_set st (fst u)
             (set_decoy_id psm
                (mkDecoyID (pep_seq (snd (snd u))) (pep_charge (snd (snd u)))
                           (pep_mods (snd (snd u))) (fst (snd u))))
      else st
  | None => st
  end.

Definition apply_updates (us : list Update) (st : list (PSM Features))
  : list (PSM Features) :=
  fold_left apply_update us st.

(** Lines 623-633: the winner among the candidates for a spectrum. *)
Definition proposal (target : option string) (top : list Peptide)
    (spec : Spectrum) : option (Features * Peptide) :=
  let dpsm_vars := map (fun c => decoy_features C c spec target) top in
  max_match <- py_max_by MatchScore dpsm_vars ;;
  pos <- py_index features_eqb max_match dpsm_vars ;;
  d_peptide <- nth_error top pos ;;
  Some (max_match, d_peptide).

Definition entry_plan (target : option string) (top : list Peptide) (n : nat)
    (entry : Spectrum * Q * nat) : option Update :=
  pr <- proposal target top (fst (fst entry)) ;;
  if (snd entry <? n)%nat then Some (snd entry, pr) else None.

(** The updates of one peptide and charge, read off the PSMs. *)
Definition charge_plan (target : option string)
    (match_fn : Q -> Q -> option (list Peptide))
    (pep_idxs : list nat) (mods : list ModSite)
    (psms : list (PSM Features)) (charge : Z) : option (list Update) :=
  charges <- mapM (fun jj => p <- nth_error psms jj ;; Some (psm_charge p))
                  pep_idxs ;;
  let charge_pep_idxs :=
    map fst (filter (fun jc => Z.eqb (snd jc) charge)
                    (combine pep_idxs charges)) in
  first <- nth_error charge_pep_idxs 0 ;;
  first_psm <- nth_error psms first ;;
  let pep_mz := calculate_mz C (psm_seq first_psm) mods charge in
  spectra <- group_spectra C psms charge_pep_idxs ;;
  match py_max_by (fun e => snd (fst e)) spectra with
  | None => Some []
  | Some best =>
      d_candidates <- search_candidates match_fn pep_mz ;;
      match d_candidates with
      | [] => Some []
      | _ :: _ =>
          top <- prefilter C (fst (fst best)) d_candidates ;;
          mapM (entry_plan target top (length psms)) spectra
      end
  end.

(** The updates of one peptide, its charges in the order of the set. *)
Definition peptide_plan (o : SetOrder) (target : option string)
    (match_fn : Q -> Q -> option (list Peptide))
    (pep_strs : list string) (psms : list (PSM Features)) (peptide : string)
  : option (list Update) :=
  let pep_idxs :=
    map fst (filter (fun ip => String.eqb (snd ip) peptide)
                    (enumerate pep_strs)) in
  first <- nth_error pep_idxs 0 ;;
  first_psm <- nth_error psms first ;;
  let mods := psm_mods first_psm in
  charges <- mapM (fun idx => p <- nth_error psms idx ;; Some (psm_charge p))
                  pep_idxs ;;
  uss <- mapM (charge_plan target match_fn pep_idxs mods psms)
              (charge_set o charges) ;;
  Some (concat uss).

(** Running the updates of a list of groups. *)
Definition run_plans {B : Type} (plan : B -> option (list Update))
    (l : list B) (st : list (PSM Features)) : option (list (PSM Features)) :=
  uss <- mapM plan l ;;
  Some (apply_updates (concat uss) st).

End Plans.

Arguments apply_update {Features}.
Arguments apply_updates {Features}.
Arguments proposal {Features}.
Arguments entry_plan {Features}.
Arguments charge_plan {Features}.
Arguments peptide_plan {Features}.
Arguments run_plans {Features} MatchScore {B}.

(** What an update does to the PSM it names. *)
Definition update_psm {Features : Type} (MatchScore : Features -> Q)
    (u : Update Features) (psm : PSM Features) : PSM Features :=
  if improves MatchScore (psm_decoy_id psm) (fst (snd u))
  then set_decoy_id psm
         (mkDecoyID (pep_seq (snd (snd u))) (pep_charge (snd (snd u)))
                    (pep_mods (snd (snd u))) (fst (snd u)))
  else psm.

(** The decoy sequences in the reverse order, everything else as in
    [first_seen]. *)
Definition decoys_reversed : SetOrder :=
  mkSetOrder (fun l => rev (nodup string_dec l)) (nodup string_dec)
    (fun l => l) (nodup Z.eq_dec).

(** The decoys in the order of [first_seen], the peptide strings and the
    charge states reversed. *)
Definition peptides_reversed : SetOrder :=
  mkSetOrder (nodup string_dec) (fun l => rev (nodup string_dec l))
    (fun l => l) (fun l => rev (nodup Z.eq_dec l)).

(** ** A run over a pool of 1000 decoys

    999 distinct sequences of seven residues, PEPT followed by three
    letters that spell the rank of the sequence in base 20, and one
    sequence of fifteen residues. With the masses of [K0] the short ones
    all weigh 718.010565 and the long one 1518.010565. *)

Definition residue_letter (k : nat) : ascii :=
  nth k ["A"; "C"; "D"; "E"; "F"; "G"; "H"; "I"; "K"; "L"; "M"; "N"; "P";
         "Q"; "R"; "S"; "T"; "V"; "W"; "Y"]%char "A"%char.

Definition short_decoy (i : nat) : string :=
  String "P" (String "E" (String "P" (String "T"
    (String (residue_letter (i / 400))
       (String (residue_letter ((i / 20) mod 20))
          (String (residue_letter (i mod 20)) EmptyString)))))).

Definition big_db : list string :=
  map short_decoy (seq 0 999) ++ ["PEPTIDEPEPTIDEK"%string].

(** No fixed modification; lysine may carry an acetylation. *)
Definition big_run : Validate :=
  mkValidate [] (fun _ => Some None)
    [("K"%string, [mkModification "N6-acetyllysine" (Some (420106 # 10000))])]
    "Phospho" (799663 # 10000) big_db.

(** Every candidate scores 7 and matches no ion; the precursor m/z is
    that of a doubly charged ion of mass 718.010565. *)
Definition flat_collab : Collaborators Q :=
  mkCollaborators
    (fun s _ => s)
    (fun _ _ _ => 718010565 # 2000000)
    (fun _ => [])
    (fun s => match py_max (spec_intensity s) with Some x => x | None => 0 end)
    (fun _ _ _ => 7).

(** The decoy sequences a run has assigned. *)
Definition assigned_seqs {Features : Type}
    (r : option (list (PSM Features))) : option (list (option string)) :=
  option_map (map (fun p => option_map did_seq (psm_decoy_id p))) r.

(** Two PSMs of one peptide with different charges and a PSM of another
    peptide. *)
Definition three_psms : list (PSM Q) :=
  [mkPSM "TARGETK" [] 2 (Some tie_spectrum) None;
   mkPSM "TARGETK" [] 3 (Some tie_spectrum) None;
   mkPSM "ANOTHERK" [] 2 (Some tie_spectrum) None].

(** * The rest of the engine and the Unimod table *)




(** ** [readers.PTMDB]: the Unimod table (src/readers.py, lines 109-181) *)

(** A dict given by its items, with the equality of its keys: [d.get(k)]
    and [d[k] = v], which overwrites the value of a key already present and
    appends a new key. *)
Fixpoint assoc_get {K V : Type} (eqb : K -> K -> bool) (d : list (K * V))
    (k : K) : option V :=
  match d with
  | [] => None
  | (k', v) :: d' => if eqb k' k then Some v else assoc_get eqb d' k
  end.

Fixpoint assoc_set {K V : Type} (eqb : K -> K -> bool) (d : list (K * V))
    (k : K) (v : V) : list (K * V) :=
  match d with
  | [] => [(k, v)]
  | (k', v') :: d' =>
      if eqb k' k then (k', v) :: d' else (k', v') :: assoc_set eqb d' k v
  end.

















(** * Properties *)

(** ** The option monad *)

Lemma bind_Some {A B : Type} (m : option A) (k : A -> option B) (b : B) :
  bind m k = Some b <-> exists a, m = Some a /\ k a = Some b.
Proof.
  destruct m as [a|]; simpl; split.
  - intros H. exists a. auto.
  - intros [a' [E H]]. inversion E; subst. exact H.
  - discriminate.
  - intros [a' [E _]]. discriminate.
Qed.

Lemma mapM_total {A B : Type} (f : A -> option B) (g : A -> B) (l : list A) :
  (forall a, In a l -> f a = Some (g a)) -> mapM f l = Some (map g l).
Proof.
  induction l as [|a l IH]; intros H; simpl.
  - reflexivity.
  - rewrite (H a (or_introl eq_refl)). simpl.
    rewrite IH by (intros; apply H; right; assumption). reflexivity.
Qed.


Lemma mapM_None {A B : Type} (f : A -> option B) (l : list A) (a : A) :
  In a l -> f a = None -> mapM f l = None.
Proof.
  induction l as [|h l IH]; simpl; intros Hin Hf.
  - contradiction.
  - destruct Hin as [->|Hin].
    + rewrite Hf. reflexivity.
    + destruct (f h); simpl; [|reflexivity].
      rewrite (IH Hin Hf). reflexivity.
Qed.

(** ** Float comparisons *)

Lemma Qleb_le (x y : Q) : Qleb x y = true <-> x <= y.
Proof. unfold Qleb. apply Qle_bool_iff. Qed.

Lemma Qltb_lt (x y : Q) : Qltb x y = true <-> x < y.
Proof.
  unfold Qltb. rewrite negb_true_iff.
  destruct (Qle_bool y x) eqn:E.
  - apply Qle_bool_iff in E. split; [discriminate|]. intros H. lra.
  - split; [|reflexivity]. intros _.
    apply Qnot_le_lt. intros H. apply Qle_bool_iff in H. congruence.
Qed.

Lemma Qltb_ge (x y : Q) : Qltb x y = false <-> y <= x.
Proof.
  unfold Qltb. rewrite negb_false_iff. apply Qle_bool_iff.
Qed.

(** ** [bisect_left] *)

Lemma StronglySorted_nondecreasing (a : list Q) :
  StronglySorted Qle a -> nondecreasing a.
Proof.
  induction 1 as [|h t Hs IH Hall]; intros i j Hij; simpl in *.
  - lia.
  - destruct i as [|i], j as [|j]; try lia.
    + lra.
    + rewrite Forall_forall in Hall. apply Hall. apply nth_In. lia.
    + apply IH. lia.
Qed.

Lemma div2_between (lo hi : nat) :
  (lo < hi)%nat -> (lo <= (lo + hi) / 2 < hi)%nat.
Proof.
  intros H.
  pose proof (Nat.div_mod_eq (lo + hi) 2) as E.
  pose proof (Nat.mod_upper_bound (lo + hi) 2) as B.
  lia.
Qed.

(** The loop stays inside [lo, hi], whatever the list holds. *)
Lemma bisect_loop_range (fuel : nat) (a : list Q) (x : Q) (lo hi : nat) :
  (lo <= hi)%nat ->
  (lo <= bisect_loop fuel a x lo hi <= hi)%nat.
Proof.
  revert lo hi. induction fuel as [|fuel IH]; intros lo hi Hle;
    cbn [bisect_loop].
  - lia.
  - destruct (lo <? hi)%nat eqn:E; [|lia].
    apply Nat.ltb_lt in E. pose proof (div2_between lo hi E) as Hm.
    destruct (Qltb _ x).
    + specialize (IH (S ((lo + hi) / 2)) hi). lia.
    + specialize (IH lo ((lo + hi) / 2)%nat). lia.
Qed.

Lemma bisect_left_le_length (a : list Q) (x : Q) :
  (bisect_left a x <= length a)%nat.
Proof.
  unfold bisect_left.
  pose proof (bisect_loop_range (length a) a x 0 (length a)). lia.
Qed.

(** With [hi - lo] iterations the loop has run to its exit [lo >= hi]: more
    fuel changes nothing. *)
Lemma bisect_loop_fuel (fuel fuel' : nat) (a : list Q) (x : Q) (lo hi : nat) :
  (hi - lo <= fuel)%nat -> (hi - lo <= fuel')%nat ->
  bisect_loop fuel a x lo hi = bisect_loop fuel' a x lo hi.
Proof.
  revert fuel' lo hi. induction fuel as [|fuel IH]; intros fuel' lo hi H1 H2.
  - destruct fuel' as [|fuel']; cbn [bisect_loop]; [reflexivity|].
    replace (lo <? hi)%nat with false; [reflexivity|].
    symmetry. apply Nat.ltb_ge. lia.
  - destruct fuel' as [|fuel']; cbn [bisect_loop].
    + replace (lo <? hi)%nat with false; [reflexivity|].
      symmetry. apply Nat.ltb_ge. lia.
    + destruct (lo <? hi)%nat eqn:E; [|reflexivity].
      apply Nat.ltb_lt in E. pose proof (div2_between lo hi E) as Hm.
      destruct (Qltb _ x); apply IH; lia.
Qed.

(** On a non-decreasing list the loop returns the partition point: every
    entry before it is below [x], every entry from it on is not. *)
Lemma bisect_loop_partition (fuel : nat) (a : list Q) (x : Q) (lo hi : nat) :
  nondecreasing a ->
  (lo <= hi <= length a)%nat -> (hi - lo <= fuel)%nat ->
  (forall i, (i < lo)%nat -> nth i a 0 < x) ->
  (forall i, (hi <= i < length a)%nat -> x <= nth i a 0) ->
  let r := bisect_loop fuel a x lo hi in
  (forall i, (i < r)%nat -> nth i a 0 < x) /\
  (forall i, (r <= i < length a)%nat -> x <= nth i a 0).
Proof.
  intros Hs. revert lo hi.
  induction fuel as [|fuel IH]; intros lo hi Hle Hf Hlo Hhi;
    cbn [bisect_loop].
  - split; [assumption|]. intros i Hi. apply Hhi. lia.
  - destruct (lo <? hi)%nat eqn:E.
    + apply Nat.ltb_lt in E. pose proof (div2_between lo hi E) as Hm.
      destruct (Qltb (nth ((lo + hi) / 2) a 0) x) eqn:Ec.
      * apply Qltb_lt in Ec. apply IH; try lia; [|assumption].
        intros i Hi.
        apply Qle_lt_trans with (nth ((lo + hi) / 2) a 0); [|assumption].
        apply Hs. lia.
      * apply Qltb_ge in Ec. apply IH; try lia; [assumption|].
        intros i Hi.
        apply Qle_trans with (nth ((lo + hi) / 2) a 0); [assumption|].
        apply Hs. lia.
    + apply Nat.ltb_ge in E. split; [assumption|].
      intros i Hi. apply Hhi. lia.
Qed.

Lemma bisect_left_partition (a : list Q) (x : Q) :
  nondecreasing a ->
  (forall i, (i < bisect_left a x)%nat -> nth i a 0 < x) /\
  (forall i, (bisect_left a x <= i < length a)%nat -> x <= nth i a 0).
Proof.
  intros Hs. unfold bisect_left.
  apply bisect_loop_partition; try assumption; try lia.
Qed.

(** A value of the list is found at the returned position. *)
Lemma bisect_left_finds (a : list Q) (x : Q) :
  nondecreasing a ->
  (exists y, In y a /\ y == x) ->
  (bisect_left a x < length a)%nat /\ nth (bisect_left a x) a 0 == x.
Proof.
  intros Hs [y [Hin Hy]].
  destruct (bisect_left_partition a x Hs) as [Hlt Hge].
  destruct (In_nth a y 0 Hin) as [j [Hj Hnth]].
  assert (Hij : (bisect_left a x <= j)%nat).
  { destruct (le_lt_dec (bisect_left a x) j) as [|Hc]; [assumption|].
    specialize (Hlt j Hc). rewrite Hnth in Hlt. lra. }
  split; [lia|].
  apply Qle_antisym.
  - apply Qle_trans with y; [|lra].
    rewrite <- Hnth. apply Hs. lia.
  - apply Hge. lia.
Qed.

(** ** [count_matched_ions] *)

Lemma py_getitem_nat {A : Type} (l : list A) (i : nat) :
  py_getitem l (Z.of_nat i) = nth_error l i.
Proof.
  unfold py_getitem.
  destruct (0 <=? Z.of_nat i)%Z eqn:E.
  - rewrite Nat2Z.id. reflexivity.
  - apply Z.leb_gt in E. lia.
Qed.

Lemma nth_error_nth_lt {A : Type} (l : list A) (i : nat) (d : A) :
  (i < length l)%nat -> nth_error l i = Some (nth i l d).
Proof. intros H. apply nth_error_nth'. exact H. Qed.

(** The guards of the summand keep both reads inside the ion list: the
    summand never raises and is [peak_hit]. *)
Lemma peak_matched_total (ion_mzs : list Q) (mz : Q) :
  peak_matched ion_mzs (bisect_left ion_mzs mz) mz = Some (peak_hit ion_mzs mz).
Proof.
  unfold peak_matched, peak_hit.
  pose proof (bisect_left_le_length ion_mzs mz) as Hle.
  set (idx := bisect_left ion_mzs mz) in *.
  destruct (0 <? idx)%nat eqn:E0.
  - apply Nat.ltb_lt in E0.
    replace (0 <? Z.of_nat idx)%Z with true by (symmetry; apply Z.ltb_lt; lia).
    replace (Z.of_nat idx - 1)%Z with (Z.of_nat (idx - 1)) by lia.
    rewrite py_getitem_nat, (nth_error_nth_lt _ _ 0) by lia.
    cbn [bind andb orb].
    destruct (Qleb (mz - nth (idx - 1) ion_mzs 0) (2 # 10)); [reflexivity|].
    cbn [orb].
    destruct (idx <? length ion_mzs)%nat eqn:E1.
    + apply Nat.ltb_lt in E1.
      replace (Z.of_nat idx <? Z.of_nat (length ion_mzs))%Z with true
        by (symmetry; apply Z.ltb_lt; lia).
      rewrite py_getitem_nat, (nth_error_nth_lt _ _ 0) by lia. reflexivity.
    + apply Nat.ltb_ge in E1.
      replace (Z.of_nat idx <? Z.of_nat (length ion_mzs))%Z with false
        by (symmetry; apply Z.ltb_ge; lia).
      reflexivity.
  - apply Nat.ltb_ge in E0.
    replace (0 <? Z.of_nat idx)%Z with false by (symmetry; apply Z.ltb_ge; lia).
    cbn [bind andb orb].
    destruct (idx <? length ion_mzs)%nat eqn:E1.
    + apply Nat.ltb_lt in E1.
      replace (Z.of_nat idx <? Z.of_nat (length ion_mzs))%Z with true
        by (symmetry; apply Z.ltb_lt; lia).
      rewrite py_getitem_nat, (nth_error_nth_lt _ _ 0) by lia. reflexivity.
    + apply Nat.ltb_ge in E1.
      replace (Z.of_nat idx <? Z.of_nat (length ion_mzs))%Z with false
        by (symmetry; apply Z.ltb_ge; lia).
      reflexivity.
Qed.

Lemma count_matched_ions_of_total (ion_mzs mzs : list Q) :
  count_matched_ions_of ion_mzs mzs =
  Some (count_true (map (peak_hit ion_mzs) mzs)).
Proof.
  unfold count_matched_ions_of.
  assert (E : mapM (fun im => peak_matched ion_mzs (fst im) (snd im))
                   (combine (map (bisect_left ion_mzs) mzs) mzs)
              = Some (map (peak_hit ion_mzs) mzs)).
  { induction mzs as [|mz mzs IH]; [reflexivity|].
    cbn [map combine mapM fst snd].
    rewrite peak_matched_total, IH. reflexivity. }
  rewrite E. reflexivity.
Qed.

Lemma count_true_le (bs : list bool) : (count_true bs <= length bs)%nat.
Proof.
  induction bs as [|b bs IH]; simpl; [lia|]. destruct b; lia.
Qed.

Lemma count_true_cons (b : bool) (bs : list bool) :
  count_true (b :: bs) = ((if b then 1 else 0) + count_true bs)%nat.
Proof. destruct b; reflexivity. Qed.

Lemma count_true_app (bs1 bs2 : list bool) :
  count_true (bs1 ++ bs2) = (count_true bs1 + count_true bs2)%nat.
Proof.
  induction bs1 as [|b bs1 IH]; simpl; [reflexivity|].
  rewrite IH. destruct b; reflexivity.
Qed.

Lemma count_true_perm (bs bs' : list bool) :
  Permutation bs bs' -> count_true bs = count_true bs'.
Proof.
  induction 1 as [|b l l' _ IH|b b' l|l l' l'' _ IH1 _ IH2]; simpl.
  - reflexivity.
  - rewrite IH. reflexivity.
  - destruct b, b'; reflexivity.
  - congruence.
Qed.

Lemma peak_hit_no_ions (mz : Q) : peak_hit [] mz = false.
Proof. reflexivity. Qed.

(** A peak that equals a theoretical ion of a sorted ion list is matched. *)
Lemma peak_hit_on_ion (ion_mzs : list Q) (mz : Q) :
  nondecreasing ion_mzs ->
  (exists y, In y ion_mzs /\ y == mz) ->
  peak_hit ion_mzs mz = true.
Proof.
  intros Hs Hin. unfold peak_hit.
  destruct (bisect_left_finds ion_mzs mz Hs Hin) as [Hlt Heq].
  apply orb_true_iff. right.
  apply andb_true_iff. split.
  - apply Nat.ltb_lt. exact Hlt.
  - apply Qleb_le. lra.
Qed.

Lemma count_true_filter {A : Type} (f : A -> bool) (l : list A) :
  count_true (map f l) = length (filter f l).
Proof.
  induction l as [|x l IH]; simpl; [reflexivity|].
  rewrite IH. destruct (f x); reflexivity.
Qed.

(** The count, as a total function. *)
Lemma count_matched_ions_value
    (get_ions : Peptide -> list Q) (peptide : Peptide) (spectrum : Spectrum) :
  count_matched_ions get_ions peptide spectrum
  = Some (length (filter (peak_hit (get_ions peptide)) (spec_mz spectrum))).
Proof.
  unfold count_matched_ions.
  rewrite count_matched_ions_of_total, count_true_filter. reflexivity.
Qed.

(** C10: [count_matched_ions] never raises; the count is the number of
    peaks that have a theoretical ion within 0.2 next to their insertion
    point, so a peak adds at most one however many ions are close to it;
    the count is at most the number of peaks, and 0 when the peptide has no
    theoretical ion. *)
Theorem count_matched_ions_total_bounded
    (get_ions : Peptide -> list Q) (peptide : Peptide) (spectrum : Spectrum) :
  exists n : nat,
    count_matched_ions get_ions peptide spectrum = Some n /\
    n = length (filter (peak_hit (get_ions peptide)) (spec_mz spectrum)) /\
    (n <= length (spec_mz spectrum))%nat /\
    (get_ions peptide = [] -> n = 0%nat).
Proof.
  rewrite count_matched_ions_value.
  eexists. split; [reflexivity|]. split; [reflexivity|]. split.
  - apply filter_length_le.
  - intros ->. induction (spec_mz spectrum) as [|x l IH]; simpl; auto.
Qed.

(** A spectrum with three peaks against the ions [100, 100.1, 200]: the
    peak at 100.05 has two ions within 0.2 and counts once. *)
Lemma count_matched_ions_total_bounded_witness :
  count_matched_ions (fun _ => [100; 1001 # 10; 200])
    (mkPeptide "PEPTIDEK" 2 []) (mkSpectrum [10005 # 100; 150; 200] [])
  = Some 2%nat /\
  count_matched_ions (fun _ => []) (mkPeptide "PEPTIDEK" 2 [])
    (mkSpectrum [10005 # 100; 150; 200] []) = Some 0%nat.
Proof.
  destruct (count_matched_ions_total_bounded (fun _ => [100; 1001 # 10; 200])
              (mkPeptide "PEPTIDEK" 2 [])
              (mkSpectrum [10005 # 100; 150; 200] []))
    as [n [E [Hn _]]].
  destruct (count_matched_ions_total_bounded (fun _ => [])
              (mkPeptide "PEPTIDEK" 2 [])
              (mkSpectrum [10005 # 100; 150; 200] []))
    as [m [E' [_ [_ Hm]]]].
  rewrite E, E', Hn, (Hm eq_refl). split; reflexivity.
Defined.

(** C9 fails as stated: the ion list 5, 1 is not empty, and a spectrum
    without peaks counts 0; the peak added at m/z 5 equals the first ion,
    but the bisection of the unsorted list puts it after both ions, next to
    the ion 1, and the count stays 0. *)
Lemma unsorted_ions_peak_not_counted :
  In 5 [5; 1] /\
  bisect_left [5; 1] 5 = 2%nat /\
  count_matched_ions (fun _ => [5; 1]) (mkPeptide "PEPTIDEK" 2 [])
    (mkSpectrum [] []) = Some 0%nat /\
  count_matched_ions (fun _ => [5; 1]) (mkPeptide "PEPTIDEK" 2 [])
    (mkSpectrum [5] [1]) = Some 0%nat.
Proof.
  split; [left; reflexivity|].
  repeat split; vm_compute; reflexivity.
Qed.

(** C9, as the code has it: the count does not depend on the order of the
    peaks; inserting a peak anywhere never lowers it; and when the
    theoretical ion list is sorted in ascending order, inserting a peak
    whose m/z equals one of its ions raises the count by one. *)
Theorem count_matched_ions_reorder_monotone
    (get_ions : Peptide -> list Q) (peptide : Peptide) :
  (forall s s' : Spectrum,
      Permutation (spec_mz s) (spec_mz s') ->
      count_matched_ions get_ions peptide s =
      count_matched_ions get_ions peptide s') /\
  (forall (mz1 mz2 : list Q) (p : Q) (i i' : list Q),
      exists n n' : nat,
        count_matched_ions get_ions peptide (mkSpectrum (mz1 ++ mz2) i)
          = Some n /\
        count_matched_ions get_ions peptide (mkSpectrum (mz1 ++ p :: mz2) i')
          = Some n' /\
        (n <= n')%nat /\
        (StronglySorted Qle (get_ions peptide) ->
         (exists y, In y (get_ions peptide) /\ y == p) ->
         n' = S n)).
Proof.
  split.
  - intros s s' Hp. unfold count_matched_ions.
    rewrite !count_matched_ions_of_total. f_equal.
    apply count_true_perm. apply Permutation_map. exact Hp.
  - intros mz1 mz2 p i i'. unfold count_matched_ions.
    rewrite !count_matched_ions_of_total. cbn [spec_mz].
    eexists. eexists. split; [reflexivity|]. split; [reflexivity|].
    rewrite !map_app, !count_true_app. cbn [map].
    rewrite count_true_cons.
    split.
    + destruct (peak_hit (get_ions peptide) p); lia.
    + intros Hs Hin.
      rewrite (peak_hit_on_ion _ _ (StronglySorted_nondecreasing _ Hs) Hin).
      lia.
Qed.

(** The ion list [100, 200, 300] and the peaks [100.1, 250]: one match;
    a further peak at 200 gives two. *)
Lemma count_matched_ions_reorder_monotone_witness :
  StronglySorted Qle [100; 200; 300] /\
  (exists y, In y [100; 200; 300] /\ y == 200) /\
  count_matched_ions (fun _ => [100; 200; 300]) (mkPeptide "PEPTIDEK" 2 [])
    (mkSpectrum [1001 # 10; 250] []) = Some 1%nat /\
  count_matched_ions (fun _ => [100; 200; 300]) (mkPeptide "PEPTIDEK" 2 [])
    (mkSpectrum [1001 # 10; 200; 250] []) = Some 2%nat.
Proof.
  assert (Hs : StronglySorted Qle [100; 200; 300]).
  { repeat constructor; unfold Qle; simpl; lia. }
  assert (Hin : exists y, In y [100; 200; 300] /\ y == 200).
  { exists 200. split; [simpl; auto | reflexivity]. }
  split; [exact Hs|]. split; [exact Hin|].
  destruct (count_matched_ions_reorder_monotone
              (fun _ => [100; 200; 300]) (mkPeptide "PEPTIDEK" 2 []))
    as [_ H].
  destruct (H [1001 # 10] [250] 200 [] []) as [n [n' [E1 [E2 [_ Hn]]]]].
  specialize (Hn Hs Hin). subst n'.
  vm_compute in E1. inversion E1; subst n.
  split; [reflexivity|]. exact E2.
Defined.

(** ** [Validate.modify_decoys] *)

Lemma binom_0_l (k : nat) : binom 0 (S k) = 0%nat.
Proof. reflexivity. Qed.

Lemma binom_lt (n k : nat) : (n < k)%nat -> binom n k = 0%nat.
Proof.
  revert k. induction n as [|n IH]; intros k H.
  - destruct k; [lia | reflexivity].
  - destruct k as [|k]; [lia|]. simpl.
    rewrite (IH k), (IH (S k)) by lia. reflexivity.
Qed.

(** [binom] on the three sizes in use, in closed form. *)
Lemma binom_1 (n : nat) : binom n 1 = n.
Proof.
  induction n as [|n IH]; [reflexivity|].
  cbn [binom]. rewrite IH. destruct n; simpl; lia.
Qed.

Lemma binom_2 (n : nat) : (2 * binom (S n) 2 = S n * n)%nat.
Proof.
  induction n as [|n IH]; [reflexivity|].
  change (binom (S (S n)) 2) with (binom (S n) 1 + binom (S n) 2)%nat.
  rewrite binom_1. nia.
Qed.

Lemma binom_3 (n : nat) : (6 * binom (S (S n)) 3 = S (S n) * S n * n)%nat.
Proof.
  induction n as [|n IH]; [reflexivity|].
  change (binom (S (S (S n))) 3)
    with (binom (S (S n)) 2 + binom (S (S n)) 3)%nat.
  pose proof (binom_2 (S n)). nia.
Qed.

Lemma combinations_length {A : Type} (l : list A) (r : nat) :
  length (combinations l r) = binom (length l) r.
Proof.
  revert r. induction l as [|x l IH]; intros r.
  - destruct r; reflexivity.
  - destruct r as [|r]; [reflexivity|].
    cbn [combinations length binom].
    rewrite length_app, length_map, !IH. reflexivity.
Qed.

Lemma subseq_nil_l {A : Type} (l : list A) : subseq [] l.
Proof. induction l; constructor; assumption. Qed.

Lemma subseq_incl {A : Type} (s l : list A) :
  subseq s l -> forall x, In x s -> In x l.
Proof.
  induction 1 as [|y s l _ IH|y s l _ IH]; intros x Hx.
  - contradiction.
  - right. apply IH. exact Hx.
  - destruct Hx as [->|Hx]; [left; reflexivity | right; apply IH; exact Hx].
Qed.

Lemma combinations_subseq {A : Type} (l : list A) (r : nat) (c : list A) :
  In c (combinations l r) -> subseq c l /\ length c = r.
Proof.
  revert r c. induction l as [|x l IH]; intros r c Hc.
  - destruct r; simpl in Hc; [|contradiction].
    destruct Hc as [<-|[]]. split; [constructor | reflexivity].
  - destruct r as [|r].
    + simpl in Hc. destruct Hc as [<-|[]].
      split; [apply subseq_nil_l | reflexivity].
    + cbn [combinations] in Hc. apply in_app_or in Hc.
      destruct Hc as [Hc|Hc].
      * apply in_map_iff in Hc. destruct Hc as [c' [<- Hc']].
        destruct (IH _ _ Hc') as [Hs Hl].
        split; [constructor; exact Hs | simpl; lia].
      * destruct (IH _ _ Hc) as [Hs Hl].
        split; [constructor; exact Hs | exact Hl].
Qed.

(** Two subsequences of a duplicate-free list with the same elements are
    the same list: distinct combinations are distinct position sets. *)
Lemma subseq_same_set {A : Type} (l c1 c2 : list A) :
  NoDup l -> subseq c1 l -> subseq c2 l ->
  (forall x, In x c1 <-> In x c2) -> c1 = c2.
Proof.
  intros Hnd H1. revert c2. induction H1 as [|y s l H1 IH|y s l H1 IH];
    intros c2 H2 Hset.
  - inversion H2; subst. reflexivity.
  - inversion Hnd as [|? ? Hy Hl]; subst.
    inversion H2 as [|? ? ? H2'|? s2 ? H2']; subst.
    + apply IH; assumption.
    + exfalso. apply Hy. apply (subseq_incl _ _ H1).
      apply Hset. left. reflexivity.
  - inversion Hnd as [|? ? Hy Hl]; subst.
    inversion H2 as [|? ? ? H2'|? s2 ? H2']; subst.
    + exfalso. apply Hy. apply (subseq_incl _ _ H2').
      apply Hset. left. reflexivity.
    + f_equal. apply IH; try assumption.
      intros x. split; intros Hx.
      * destruct (proj1 (Hset x) (or_intror Hx)) as [->|]; [|assumption].
        exfalso. apply Hy. apply (subseq_incl _ _ H1). exact Hx.
      * destruct (proj2 (Hset x) (or_intror Hx)) as [->|]; [|assumption].
        exfalso. apply Hy. apply (subseq_incl _ _ H2'). exact Hx.
Qed.

Lemma combinations_NoDup {A : Type} (l : list A) (r : nat) :
  NoDup l -> NoDup (combinations l r).
Proof.
  revert r. induction l as [|x l IH]; intros r Hnd.
  - destruct r; simpl; repeat constructor. intros [].
  - destruct r as [|r]; [simpl; repeat constructor; intros []|].
    inversion Hnd; subst. cbn [combinations].
    apply NoDup_app.
    + apply Injective_map_NoDup; [|apply IH; assumption].
      intros a b E. inversion E. reflexivity.
    + apply IH. assumption.
    + intros c Hc Hc'. apply in_map_iff in Hc. destruct Hc as [c' [<- _]].
      apply combinations_subseq in Hc'. destruct Hc' as [Hs _].
      match goal with H : ~ In x l |- _ => apply H end.
      apply (subseq_incl _ _ Hs). left. reflexivity.
Qed.

Lemma target_subsets_In (l c : list nat) :
  In c (target_subsets l) ->
  subseq c l /\ (1 <= length c <= 3)%nat.
Proof.
  unfold target_subsets. intros H. apply in_flat_map in H.
  destruct H as [jj [Hjj Hc]]. apply in_seq in Hjj.
  apply combinations_subseq in Hc. destruct Hc as [Hs Hl]. split; [exact Hs|lia].
Qed.

Lemma target_subsets_NoDup (l : list nat) :
  NoDup l -> NoDup (target_subsets l).
Proof.
  intros Hnd. unfold target_subsets.
  assert (G : forall sizes, NoDup sizes ->
            NoDup (flat_map (fun jj => combinations l (jj + 1)) sizes)).
  { induction sizes as [|a sizes IH]; intros Hs; simpl; [constructor|].
    inversion Hs; subst. apply NoDup_app.
    - apply combinations_NoDup. exact Hnd.
    - apply IH. assumption.
    - intros c Hc Hc'. apply in_flat_map in Hc'. destruct Hc' as [jj [Hjj Hc']].
      apply combinations_subseq in Hc, Hc'.
      assert (a = jj) by lia. subst. contradiction. }
  apply G. apply seq_NoDup.
Qed.

Lemma target_subsets_length (l : list nat) :
  length (target_subsets l)
  = (binom (length l) 1 + binom (length l) 2 + binom (length l) 3)%nat.
Proof.
  unfold target_subsets.
  remember (length l) as k eqn:Ek.
  assert (E : forall r, length (combinations l r) = binom k r).
  { intros r. rewrite Ek. apply combinations_length. }
  destruct k as [|[|[|k]]]; cbn [Nat.min seq flat_map Nat.add];
    rewrite ?length_app, ?E; cbn [length].
  - reflexivity.
  - reflexivity.
  - reflexivity.
  - rewrite Nat.min_0_r. cbn [seq flat_map length]. lia.
Qed.

Lemma enumerate_from_In {A : Type} (l : list A) (n i : nat) (a : A) :
  In (i, a) (enumerate_from n l) <->
  (n <= i)%nat /\ nth_error l (i - n) = Some a.
Proof.
  revert n. induction l as [|b l IH]; intros n; simpl.
  - split; [contradiction|]. intros [_ H]. destruct (i - n)%nat; discriminate.
  - rewrite IH. split.
    + intros [E|[Hle Hn]].
      * inversion E; subst. rewrite Nat.sub_diag. split; [lia | reflexivity].
      * split; [lia|]. replace (i - n)%nat with (S (i - S n)) by lia. exact Hn.
    + intros [Hle Hn]. destruct (Nat.eq_dec n i) as [->|Hne].
      * left. rewrite Nat.sub_diag in Hn. simpl in Hn. congruence.
      * right. split; [lia|].
        replace (i - n)%nat with (S (i - S n)) in Hn by lia. exact Hn.
Qed.

Lemma enumerate_from_fst {A : Type} (l : list A) (n : nat) :
  map fst (enumerate_from n l) = seq n (length l).
Proof.
  revert n. induction l as [|a l IH]; intros n; simpl; [reflexivity|].
  rewrite IH. reflexivity.
Qed.

Lemma NoDup_map_filter {A B : Type} (g : A -> B) (f : A -> bool) (l : list A) :
  NoDup (map g l) -> NoDup (map g (filter f l)).
Proof.
  induction l as [|a l IH]; simpl; intros H; [constructor|].
  inversion H; subst. destruct (f a); simpl; [|apply IH; assumption].
  constructor; [|apply IH; assumption].
  intros Hin. match goal with H : ~ In _ _ |- _ => apply H end.
  apply in_map_iff in Hin. destruct Hin as [x [E Hx]].
  apply in_map_iff. exists x. split; [exact E|].
  apply filter_In in Hx. tauto.
Qed.

Lemma residue_idxs_NoDup (keep : string -> bool) (seq : string) :
  NoDup (residue_idxs keep seq).
Proof.
  unfold residue_idxs, enumerate. apply NoDup_map_filter.
  rewrite enumerate_from_fst. apply seq_NoDup.
Qed.

Lemma residue_idxs_In (keep : string -> bool) (seq : string) (kk : nat) :
  In kk (residue_idxs keep seq) <->
  exists res, nth_error (chars seq) kk = Some res /\ keep res = true.
Proof.
  unfold residue_idxs, enumerate. rewrite in_map_iff. split.
  - intros [[i a] [E H]]. simpl in E. subst i.
    apply filter_In in H. destruct H as [H Hk].
    apply enumerate_from_In in H. rewrite Nat.sub_0_r in H.
    exists a. tauto.
  - intros [res [Hn Hk]]. exists (kk, res). split; [reflexivity|].
    apply filter_In. split; [|exact Hk].
    apply enumerate_from_In. rewrite Nat.sub_0_r. split; [lia | exact Hn].
Qed.

Lemma residue_idxs_length (tr : string) (seq : string) :
  length (residue_idxs (fun res => String.eqb res tr) seq)
  = count_occ string_dec (chars seq) tr.
Proof.
  unfold residue_idxs, enumerate. rewrite length_map.
  generalize 0%nat. induction (chars seq) as [|c l IH]; intros n;
    [reflexivity|].
  cbn [enumerate_from filter snd count_occ].
  destruct (String.eqb_spec c tr) as [->|Hne].
  - destruct (string_dec tr tr); [|congruence]. simpl. rewrite IH. reflexivity.
  - destruct (string_dec c tr); [congruence|]. apply IH.
Qed.

Lemma subseq_length {A : Type} (s l : list A) :
  subseq s l -> (length s <= length l)%nat.
Proof. induction 1; simpl; lia. Qed.

Lemma subseq_NoDup {A : Type} (s l : list A) :
  subseq s l -> NoDup l -> NoDup s.
Proof.
  induction 1 as [|y s l Hs IH|y s l Hs IH]; intros Hnd.
  - constructor.
  - inversion Hnd; subst. apply IH. assumption.
  - inversion Hnd; subst. constructor; [|apply IH; assumption].
    intros Hin. apply (subseq_incl _ _ Hs) in Hin. contradiction.
Qed.

Lemma subseq_complete {A : Type} (c l : list A) :
  subseq c l -> In c (combinations l (length c)).
Proof.
  induction 1 as [|y s l Hs IH|y s l Hs IH].
  - left. reflexivity.
  - destruct s as [|a s].
    + destruct l; left; reflexivity.
    + cbn [length combinations] in *. apply in_or_app. right. exact IH.
  - cbn [length combinations]. apply in_or_app. left.
    apply in_map. exact IH.
Qed.

(** The subsets enumerated are the subsequences of one to three positions. *)
Lemma target_subsets_iff (l c : list nat) :
  In c (target_subsets l) <-> subseq c l /\ (1 <= length c <= 3)%nat.
Proof.
  split; [apply target_subsets_In|].
  intros [Hs Hl]. unfold target_subsets. apply in_flat_map.
  exists (length c - 1)%nat. split.
  - apply in_seq. pose proof (subseq_length _ _ Hs). lia.
  - replace (length c - 1 + 1)%nat with (length c) by lia.
    apply subseq_complete. exact Hs.
Qed.

Lemma enumerate_from_sorted {A : Type} (f : nat * A -> bool) (l : list A)
    (n : nat) :
  StronglySorted lt (map fst (filter f (enumerate_from n l))) /\
  Forall (le n) (map fst (filter f (enumerate_from n l))).
Proof.
  revert n. induction l as [|a l IH]; intros n; cbn [enumerate_from filter].
  - split; constructor.
  - destruct (IH (S n)) as [Hs Hf].
    assert (Hf' : Forall (le n) (map fst (filter f (enumerate_from (S n) l)))).
    { eapply Forall_impl; [|exact Hf]. intros x Hx. lia. }
    destruct (f (n, a)); cbn [map fst].
    + split.
      * constructor; [exact Hs|]. eapply Forall_impl; [|exact Hf].
        intros x Hx. lia.
      * constructor; [lia | exact Hf'].
    + split; assumption.
Qed.

Lemma residue_idxs_sorted (keep : string -> bool) (seq : string) :
  StronglySorted lt (residue_idxs keep seq).
Proof.
  unfold residue_idxs, enumerate.
  apply (enumerate_from_sorted (fun ir => keep (snd ir))).
Qed.

Lemma subseq_sorted (s l : list nat) :
  subseq s l -> StronglySorted lt l -> StronglySorted lt s.
Proof.
  induction 1 as [|y s l Hs IH|y s l Hs IH]; intros Hl.
  - constructor.
  - apply StronglySorted_inv in Hl. apply IH. tauto.
  - apply StronglySorted_inv in Hl. destruct Hl as [Hl Hy].
    constructor; [apply IH; exact Hl|].
    rewrite Forall_forall in *. intros x Hx. apply Hy.
    apply (subseq_incl _ _ Hs). exact Hx.
Qed.

Lemma sorted_incl_subseq (l : list nat) :
  StronglySorted lt l ->
  forall s, StronglySorted lt s -> (forall x, In x s -> In x l) -> subseq s l.
Proof.
  induction 1 as [|x l Hl IH Hx]; intros s Hs Hincl.
  - destruct s as [|y s]; [constructor|].
    destruct (Hincl y (or_introl eq_refl)).
  - destruct s as [|y s]; [apply subseq_nil_l|].
    apply StronglySorted_inv in Hs. destruct Hs as [Hs Hy].
    rewrite Forall_forall in Hx, Hy.
    destruct (Nat.eq_dec y x) as [->|Hne].
    + apply subseq_take. apply IH; [exact Hs|].
      intros z Hz. destruct (Hincl z (or_intror Hz)) as [E|Hin]; [|exact Hin].
      specialize (Hy z Hz). lia.
    + apply subseq_skip. apply IH; [constructor; [exact Hs|]|].
      * apply Forall_forall. exact Hy.
      * assert (Hyl : In y l).
        { destruct (Hincl y (or_introl eq_refl)) as [E|Hin];
            [congruence | exact Hin]. }
        intros z [<-|Hz]; [exact Hyl|].
        destruct (Hincl z (or_intror Hz)) as [E|Hin]; [|exact Hin].
        specialize (Hy z Hz). specialize (Hx y Hyl). lia.
Qed.

(** The position subsets of a sequence: the increasing lists of one to three
    positions that hold the target residue. *)
Lemma target_positions_iff (seq tr : string) (c : list nat) :
  In c (target_subsets (residue_idxs (fun res => String.eqb res tr) seq)) <->
  (1 <= length c <= 3)%nat /\ StronglySorted lt c /\
  forall kk, In kk c -> nth_error (chars seq) kk = Some tr.
Proof.
  rewrite target_subsets_iff. split.
  - intros [Hs Hl]. split; [exact Hl|]. split.
    + apply (subseq_sorted _ _ Hs). apply residue_idxs_sorted.
    + intros kk Hkk. apply (subseq_incl _ _ Hs) in Hkk.
      apply residue_idxs_In in Hkk. destruct Hkk as [res [Hn He]].
      apply String.eqb_eq in He. subst. exact Hn.
  - intros [Hl [Hs Hpos]]. split; [|exact Hl].
    apply sorted_incl_subseq; [apply residue_idxs_sorted | exact Hs|].
    intros kk Hkk. apply residue_idxs_In. exists tr.
    split; [apply Hpos; exact Hkk | apply String.eqb_refl].
Qed.

(** ** The fixed modifications and their mass *)

Lemma fold_left_Qplus_acc (l : list Q) (a : Q) :
  fold_left Qplus l a == a + fold_left Qplus l 0.
Proof.
  revert a. induction l as [|x l IH]; intros a; cbn [fold_left].
  - lra.
  - rewrite IH, (IH (0 + x)). lra.
Qed.

Lemma Qsum_cons (x : Q) (l : list Q) : Qsum (x :: l) == x + Qsum l.
Proof.
  unfold Qsum. cbn [fold_left]. rewrite fold_left_Qplus_acc. lra.
Qed.


(** The sites of the residues, when their modifications resolve: the loop
    of lines 746-751 succeeds and the masses of its sites add up to the
    masses of the modifications configured for the residues. *)
Lemma residue_sites_resolved (self : Validate) (l : list string) (n : nat)
    (acc : Q) :
  forallb (resolves self) l = true ->
  exists per_res total,
    mapM (fun ir =>
            match dict_get (fixed_residues self) (snd ir) with
            | Some mod_name =>
                mass <- unimod_get_mass self mod_name ;;
                Some [mkModSite mass (SiteIdx (fst ir + 1)) (Some mod_name)]
            | None => Some []
            end)
         (enumerate_from n l) = Some per_res /\
    foldM (fun acc ms => match ms_mass ms with
                         | Some m => Some (acc + m)
                         | None => None
                         end)
          (concat per_res) acc = Some total /\
    total == acc + Qsum (map (fixed_mod_mass self) l).
Proof.
  revert n acc. induction l as [|c l IH]; intros n acc H.
  - exists [], acc. repeat split. unfold Qsum. simpl. lra.
  - cbn [forallb] in H. apply andb_true_iff in H. destruct H as [Hc Hl].
    cbn [enumerate_from mapM snd fst map].
    unfold resolves in Hc. 
    assert (Em : fixed_mod_mass self c
                 = match dict_get (fixed_residues self) c with
                   | Some mod_name =>
                       match unimod_get_mass self mod_name with
                       | Some (Some m) => m
                       | _ => 0
                       end
                   | None => 0
                   end) by reflexivity.
    destruct (dict_get (fixed_residues self) c) as [mod_name|].
    + destruct (unimod_get_mass self mod_name) as [[m|]|]; try discriminate.
      destruct (IH (S n) (acc + m) Hl) as [per_res [total [E1 [E2 E3]]]].
      exists ([mkModSite (Some m) (SiteIdx (n + 1)) (Some mod_name)] :: per_res),
             total.
      cbn [bind]. rewrite E1. cbn [bind concat app foldM ms_mass].
      split; [reflexivity|]. split; [exact E2|].
      rewrite E3, Qsum_cons, Em. lra.
    + destruct (IH (S n) acc Hl) as [per_res [total [E1 [E2 E3]]]].
      exists ([] :: per_res), total.
      cbn [bind]. rewrite E1. cbn [bind concat app].
      split; [reflexivity|]. split; [exact E2|].
      rewrite E3, Qsum_cons, Em. lra.
Qed.

(** When the fixed modifications of a sequence resolve, [gen_fixed_mods]
    returns sites whose masses add up to the mass of the N-terminal
    modification plus, residue by residue, the mass of the modification
    configured for it. *)
Lemma gen_fixed_mods_resolved (K : Constants) (self : Validate)
    (seq : string) :
  fixed_resolved self seq = true ->
  exists fixed base,
    gen_fixed_mods self seq = Some fixed /\
    fixed_mass K seq fixed = Some base /\
    base == H2O K + Qsum (map (AA_MASSES K) (chars seq))
            + (fixed_mod_mass self "nterm"
               + Qsum (map (fixed_mod_mass self) (chars seq))).
Proof.
  unfold fixed_resolved. intros H. apply andb_true_iff in H.
  destruct H as [Hn Hr]. unfold gen_fixed_mods, fixed_mass, sum_masses.
  unfold resolves in Hn.
  assert (Em : fixed_mod_mass self "nterm"
               = match dict_get (fixed_residues self) "nterm" with
                 | Some mod_name =>
                     match unimod_get_mass self mod_name with
                     | Some (Some m) => m
                     | _ => 0
                     end
                 | None => 0
                 end) by reflexivity.
  destruct (dict_get (fixed_residues self) "nterm") as [nterm_mod|].
  - destruct (unimod_get_mass self nterm_mod) as [[m|]|]; try discriminate.
    destruct (residue_sites_resolved self (chars seq) 0 (0 + m) Hr)
      as [per_res [total [E1 [E2 E3]]]].
    unfold enumerate. cbn [bind]. rewrite E1. cbn [bind].
    eexists. eexists. split; [reflexivity|].
    cbn [app foldM ms_mass bind]. rewrite E2. cbn [bind].
    split; [reflexivity|]. rewrite E3, Em. lra.
  - destruct (residue_sites_resolved self (chars seq) 0 0 Hr)
      as [per_res [total [E1 [E2 E3]]]].
    unfold enumerate. cbn [bind]. rewrite E1. cbn [bind].
    eexists. eexists. split; [reflexivity|].
    cbn [app]. rewrite E2. cbn [bind].
    split; [reflexivity|]. rewrite E3, Em. lra.
Qed.

(** The rows of one sequence whose fixed modifications resolve. *)
Lemma modify_decoy_resolved (K : Constants) (self : Validate)
    (res_idxs : list (list nat)) (ii : nat) (seq : string)
    (target_idxs : list nat) :
  fixed_resolved self seq = true ->
  nth_error res_idxs ii = Some target_idxs ->
  exists fixed base,
    gen_fixed_mods self seq = Some fixed /\
    base == H2O K + Qsum (map (AA_MASSES K) (chars seq))
            + (fixed_mod_mass self "nterm"
               + Qsum (map (fixed_mod_mass self) (chars seq))) /\
    modify_decoy K self res_idxs ii seq
    = Some (map (fun idxs =>
                   (ii, fixed ++ target_sites self idxs,
                    base + mod_mass self * inject_Z (Z.of_nat (length idxs))))
                (target_subsets target_idxs)).
Proof.
  intros Hres Hidx.
  destruct (gen_fixed_mods_resolved K self seq Hres)
    as [fixed [base [E1 [E2 E3]]]].
  exists fixed, base. split; [exact E1|]. split; [exact E3|].
  unfold modify_decoy. rewrite E1. cbn [bind]. rewrite E2. cbn [bind].
  rewrite Hidx. reflexivity.
Qed.

(** The loop over the sequences, from the sequence with index [n] on: the
    rows appended are, sequence by sequence, those of the position subsets
    of the sequence. *)
Lemma modify_decoys_from (K : Constants) (self : Validate) (tr : string)
    (res_idxs : list (list nat)) (l : list string) (n : nat) :
  (forall i seq, nth_error l i = Some seq ->
                 nth_error res_idxs (n + i)
                 = Some (residue_idxs (fun res => String.eqb res tr) seq)) ->
  forallb (fixed_resolved self) l = true ->
  exists per_seq,
    mapM (fun iseq => modify_decoy K self res_idxs (fst iseq) (snd iseq))
         (enumerate_from n l) = Some per_seq /\
    Forall2 (fun (v : nat * list ModSite * Q) (r : nat * string * list nat) =>
               fst (fst v) = fst (fst r) /\
               (exists fixed,
                   gen_fixed_mods self (snd (fst r)) = Some fixed /\
                   snd (fst v) = fixed ++ target_sites self (snd r)) /\
               snd v == H2O K + Qsum (map (AA_MASSES K) (chars (snd (fst r))))
                        + (fixed_mod_mass self "nterm"
                           + Qsum (map (fixed_mod_mass self)
                                       (chars (snd (fst r)))))
                        + mod_mass self
                          * inject_Z (Z.of_nat (length (snd r))))
            (concat per_seq)
            (flat_map (fun iseq =>
                         map (fun idxs => (fst iseq, snd iseq, idxs))
                             (target_subsets
                                (residue_idxs (fun res => String.eqb res tr)
                                              (snd iseq))))
                      (enumerate_from n l)).
Proof.
  revert n. induction l as [|seq l IH]; intros n Hidx Hres.
  - exists []. split; [reflexivity | constructor].
  - cbn [forallb] in Hres. apply andb_true_iff in Hres.
    destruct Hres as [Hseq Hl].
    assert (Hn : nth_error res_idxs n
                 = Some (residue_idxs (fun res => String.eqb res tr) seq)).
    { rewrite <- (Nat.add_0_r n). apply (Hidx 0%nat). reflexivity. }
    destruct (modify_decoy_resolved K self res_idxs n seq _ Hseq Hn)
      as [fixed [base [E1 [E2 E3]]]].
    destruct (IH (S n)) as [per_seq [E4 F]]; [|exact Hl|].
    { intros i s Hs. replace (S n + i)%nat with (n + S i)%nat by lia.
      apply (Hidx (S i)). exact Hs. }
    eexists. cbn [enumerate_from mapM fst snd]. rewrite E3. cbn [bind].
    rewrite E4. cbn [bind]. split; [reflexivity|].
    cbn [concat flat_map fst snd]. apply Forall2_app; [|exact F].
    clear E3.
    induction (target_subsets (residue_idxs (fun res => String.eqb res tr) seq))
      as [|idxs rest IHr]; cbn [map]; [constructor|].
    constructor; [|exact IHr].
    cbn [fst snd]. split; [reflexivity|]. split.
    + exists fixed. split; [exact E1 | reflexivity].
    + rewrite E2. reflexivity.
Qed.

Lemma rows_from_ge {B : Type} (F : string -> list B) (l : list string)
    (n : nat) (r : nat * string * B) :
  In r (flat_map (fun iseq => map (fun b => (fst iseq, snd iseq, b))
                                  (F (snd iseq)))
                 (enumerate_from n l)) ->
  (n <= fst (fst r))%nat.
Proof.
  intros H. apply in_flat_map in H. destruct H as [[i s] [Hi Hr]].
  apply in_map_iff in Hr. destruct Hr as [b [<- _]].
  apply enumerate_from_In in Hi. cbn [fst snd]. lia.
Qed.

Lemma rows_from_NoDup {B : Type} (F : string -> list B) (l : list string)
    (n : nat) :
  (forall s, NoDup (F s)) ->
  NoDup (flat_map (fun iseq => map (fun b => (fst iseq, snd iseq, b))
                                   (F (snd iseq)))
                  (enumerate_from n l)).
Proof.
  intros HF. revert n. induction l as [|s l IH]; intros n;
    cbn [enumerate_from flat_map fst snd]; [constructor|].
  apply NoDup_app.
  - apply Injective_map_NoDup; [|apply HF].
    intros a b E. inversion E. reflexivity.
  - apply IH.
  - intros r Hr Hr'. apply in_map_iff in Hr. destruct Hr as [b [<- _]].
    apply rows_from_ge in Hr'. cbn [fst] in Hr'. lia.
Qed.

Lemma filter_none {A : Type} (f : A -> bool) (l : list A) :
  (forall x, In x l -> f x = false) -> filter f l = [].
Proof.
  induction l as [|a l IH]; intros H; cbn [filter]; [reflexivity|].
  rewrite (H a (or_introl eq_refl)). apply IH.
  intros x Hx. apply H. right. exact Hx.
Qed.

Lemma filter_all {A : Type} (f : A -> bool) (l : list A) :
  (forall x, In x l -> f x = true) -> filter f l = l.
Proof.
  induction l as [|a l IH]; intros H; cbn [filter]; [reflexivity|].
  rewrite (H a (or_introl eq_refl)). f_equal. apply IH.
  intros x Hx. apply H. right. exact Hx.
Qed.

Lemma rows_from_count {B : Type} (F : string -> list B) (l : list string)
    (n ii : nat) (seq : string) :
  (n <= ii)%nat -> nth_error l (ii - n) = Some seq ->
  length (filter (fun r : nat * string * B => fst (fst r) =? ii)%nat
                 (flat_map (fun iseq => map (fun b => (fst iseq, snd iseq, b))
                                            (F (snd iseq)))
                           (enumerate_from n l)))
  = length (F seq).
Proof.
  revert n. induction l as [|s l IH]; intros n Hle Hn.
  - destruct (ii - n)%nat; discriminate.
  - cbn [enumerate_from flat_map fst snd]. rewrite filter_app, length_app.
    destruct (Nat.eq_dec n ii) as [->|Hne].
    + rewrite Nat.sub_diag in Hn. cbn [nth_error] in Hn.
      injection Hn as ->.
      rewrite filter_all, (filter_none _ (flat_map _ _)).
      * cbn [length]. rewrite length_map. lia.
      * intros r Hr. apply rows_from_ge in Hr. apply Nat.eqb_neq. lia.
      * intros r Hr. apply in_map_iff in Hr. destruct Hr as [b [<- _]].
        apply Nat.eqb_refl.
    + rewrite filter_none.
      * cbn [length]. apply IH; [lia|].
        replace (ii - n)%nat with (S (ii - S n)) in Hn by lia. exact Hn.
      * intros r Hr. apply in_map_iff in Hr. destruct Hr as [b [<- _]].
        apply Nat.eqb_neq. exact Hne.
Qed.

Lemma Forall2_map_left {A B C : Type} (f : A -> B) (P : B -> C -> Prop)
    (l : list A) (l' : list C) :
  Forall2 (fun a c => P (f a) c) l l' -> Forall2 P (map f l) l'.
Proof. induction 1; cbn [map]; constructor; assumption. Qed.

Lemma Forall2_weaken {A B : Type} (P Q : A -> B -> Prop) (l : list A)
    (l' : list B) :
  (forall a b, P a b -> Q a b) -> Forall2 P l l' -> Forall2 Q l l'.
Proof. intros H. induction 1; constructor; auto. Qed.

Lemma Forall2_map_eq {A B C : Type} (f : A -> C) (g : B -> C) (l : list A)
    (l' : list B) :
  Forall2 (fun a b => f a = g b) l l' -> map f l = map g l'.
Proof. induction 1; cbn [map]; [reflexivity | f_equal; assumption]. Qed.

(** C6 fails as stated: the configuration gives cysteine a fixed
    modification under a name that the Unimod table does not resolve. The
    lookup returns no mass, the site of the modification is built without
    one, and the sum of the masses on lines 712-714 raises: for PEPTCDEK,
    which holds the target residue T once, no variant is emitted where the
    claim has one. *)
Lemma unresolved_fixed_mod_emits_nothing :
  count_occ string_dec (chars "PEPTCDEK") "T"%string = 1%nat /\
  residue_idxs (fun res => String.eqb res "T") "PEPTCDEK" = [3%nat] /\
  unimod_get_mass misspelt_run "Carbamidomethylation" = Some None /\
  gen_fixed_mods misspelt_run "PEPTCDEK"
  = Some [mkModSite None (SiteIdx 5) (Some "Carbamidomethylation"%string)] /\
  modify_decoys K0 misspelt_run ["PEPTCDEK"%string] [[3%nat]] = None /\
  _generate_residue_decoys first_seen K0 misspelt_run (Some "T"%string)
    (make_fixed_aas misspelt_run (Some "T"%string)) = None.
Proof.
  repeat split; vm_compute; reflexivity.
Qed.

(** C6, as the code has it: when every fixed modification that applies to
    the sequences (that of the N-terminus and those of their residues)
    resolves to a mass, the placement returns one row per sequence and
    subset of one to three of the positions of the target residue in it,
    and no other row: for a sequence with [k] occurrences of the target
    residue C(k,1) + C(k,2) + C(k,3) rows, no row twice and no two rows of
    a sequence with the same positions. A row carries the index of its
    sequence, the fixed modifications of the sequence followed by the
    target modification at each chosen position counted from 1, and the
    mass: water plus the residue masses, plus the masses of the fixed
    modifications (N-terminus and residues), plus the modification mass
    times the size of the subset. *)
Theorem modify_decoys_enumerates (K : Constants) (self : Validate)
    (seqs : list string) (tr : string) :
  forallb (fixed_resolved self) seqs = true ->
  exists (rows : list (nat * string * list nat))
         (idxs : list nat) (mods : list (list ModSite)) (masses : list Q),
    modify_decoys K self seqs
      (map (residue_idxs (fun res => String.eqb res tr)) seqs)
    = Some (idxs, mods, masses) /\
    NoDup rows /\
    (forall ii seq S,
        In (ii, seq, S) rows <->
        nth_error seqs ii = Some seq /\
        (1 <= length S <= 3)%nat /\ StronglySorted lt S /\
        forall kk, In kk S -> nth_error (chars seq) kk = Some tr) /\
    (forall ii seq,
        nth_error seqs ii = Some seq ->
        let k := count_occ string_dec (chars seq) tr in
        length (filter (fun r : nat * string * list nat =>
                          (fst (fst r) =? ii)%nat) rows)
        = (binom k 1 + binom k 2 + binom k 3)%nat) /\
    (forall ii seq S1 S2,
        In (ii, seq, S1) rows -> In (ii, seq, S2) rows ->
        (forall x, In x S1 <-> In x S2) -> S1 = S2) /\
    idxs = map (fun r => fst (fst r)) rows /\
    Forall2 (fun ms r =>
               exists fixed,
                 gen_fixed_mods self (snd (fst r)) = Some fixed /\
                 ms = fixed ++
                      map (fun kk => mkModSite (Some (mod_mass self))
                                       (SiteIdx (kk + 1))
                                       (Some (target_mod self)))
                          (snd r))
            mods rows /\
    Forall2 (fun m r =>
               m == H2O K + Qsum (map (AA_MASSES K) (chars (snd (fst r))))
                    + (fixed_mod_mass self "nterm"
                       + Qsum (map (fixed_mod_mass self)
                                   (chars (snd (fst r)))))
                    + mod_mass self * inject_Z (Z.of_nat (length (snd r))))
            masses rows.
Proof.
  intros Hres.
  destruct (modify_decoys_from K self tr
              (map (residue_idxs (fun res => String.eqb res tr)) seqs)
              seqs 0) as [per_seq [E F]]; [|exact Hres|].
  { intros i seq Hi. cbn [Nat.add]. apply map_nth_error. exact Hi. }
  eexists. eexists. eexists. eexists.
  split; [unfold modify_decoys, enumerate; rewrite E; reflexivity|].
  split; [|split; [|split; [|split; [|split; [|split]]]]].
  - apply rows_from_NoDup with
      (F := fun s => target_subsets
                       (residue_idxs (fun res => String.eqb res tr) s)).
    intros s. apply target_subsets_NoDup, residue_idxs_NoDup.
  - intros ii seq S. rewrite in_flat_map. split.
    + intros [[i s] [Hi Hr]]. apply in_map_iff in Hr.
      destruct Hr as [S' [Er HS]]. cbn [fst snd] in Er, HS.
      inversion Er; subst i s S'. clear Er.
      apply enumerate_from_In in Hi. rewrite Nat.sub_0_r in Hi.
      apply target_positions_iff in HS. destruct Hi as [_ Hi].
      split; [exact Hi | exact HS].
    + intros [Hn HS]. exists (ii, seq). split.
      * apply enumerate_from_In. rewrite Nat.sub_0_r. split; [lia | exact Hn].
      * cbn [fst snd]. apply in_map. apply target_positions_iff. exact HS.
  - intros ii seq Hn k.
    rewrite (rows_from_count
               (fun s => target_subsets
                           (residue_idxs (fun res => String.eqb res tr) s))
               seqs 0 ii seq); [|lia | rewrite Nat.sub_0_r; exact Hn].
    rewrite target_subsets_length, residue_idxs_length. reflexivity.
  - intros ii seq S1 S2 H1 H2 Hset.
    assert (G : forall S, In (ii, seq, S)
                  (flat_map
                     (fun iseq : nat * string =>
                        map (fun idxs => (fst iseq, snd iseq, idxs))
                            (target_subsets
                               (residue_idxs (fun res => String.eqb res tr)
                                             (snd iseq))))
                     (enumerate_from 0 seqs)) ->
                subseq S (residue_idxs (fun res => String.eqb res tr) seq)).
    { intros S HS. apply in_flat_map in HS. destruct HS as [[i s] [_ Hr]].
      apply in_map_iff in Hr. destruct Hr as [S' [Er HS]].
      cbn [fst snd] in Er, HS. inversion Er; subst i s S'.
      apply target_subsets_In in HS. tauto. }
    apply (subseq_same_set
             (residue_idxs (fun res => String.eqb res tr) seq));
      [apply residue_idxs_NoDup | apply G; exact H1 | apply G; exact H2
      | exact Hset].
  - apply Forall2_map_eq. eapply Forall2_weaken; [|exact F].
    cbn beta. intros v r H. tauto.
  - apply Forall2_map_left. eapply Forall2_weaken; [|exact F].
    cbn beta. intros v r [_ [H _]]. exact H.
  - apply Forall2_map_left. eapply Forall2_weaken; [|exact F].
    cbn beta. intros v r [_ [_ H]]. exact H.
Qed.

(** The sequences TCTPTTK, PEPTIDEK and AACCAAK with target residue T,
    a labelled N-terminus and carbamidomethylated cysteines: four, one and
    no occurrence of T, hence 4 + 6 + 4 = 14 rows, one row and none; the
    first row is TCTPTTK with the target modification on its first
    residue. *)
Lemma modify_decoys_enumerates_witness :
  forallb (fixed_resolved labelled_run) (decoy_db labelled_run) = true /\
  exists (rows : list (nat * string * list nat))
         (idxs : list nat) (mods : list (list ModSite)) (masses : list Q),
    modify_decoys K0 labelled_run (decoy_db labelled_run)
      (map (residue_idxs (fun res => String.eqb res "T"))
           (decoy_db labelled_run))
    = Some (idxs, mods, masses) /\
    idxs = map (fun r => fst (fst r)) rows /\
    length (filter (fun r : nat * string * list nat =>
                      (fst (fst r) =? 0)%nat) rows) = 14%nat /\
    length (filter (fun r : nat * string * list nat =>
                      (fst (fst r) =? 1)%nat) rows) = 1%nat /\
    length (filter (fun r : nat * string * list nat =>
                      (fst (fst r) =? 2)%nat) rows) = 0%nat /\
    In (0%nat, "TCTPTTK"%string, [0; 2; 5]%nat) rows /\
    nth_error mods 0
    = Some [mkModSite (Some (304205360 # 1000000)) SiteNterm
              (Some "iTRAQ8plex"%string);
            mkModSite (Some (57021464 # 1000000)) (SiteIdx 2)
              (Some "Carbamidomethyl"%string);
            mkModSite (Some (799663 # 10000)) (SiteIdx 1)
              (Some "Phospho"%string)] /\
    (forall m, nth_error masses 0 = Some m ->
               m == (18010565 # 1000000) + 700 + (304205360 # 1000000)
                    + (57021464 # 1000000) + (799663 # 10000)).
Proof.
  assert (Hres : forallb (fixed_resolved labelled_run) (decoy_db labelled_run)
                 = true) by reflexivity.
  split; [exact Hres|].
  destruct (modify_decoys_enumerates K0 labelled_run (decoy_db labelled_run)
              "T" Hres)
    as [rows [idxs [mods [masses [E [_ [Hin [Hcount [_ [Hidxs _]]]]]]]]]].
  exists rows, idxs, mods, masses.
  split; [exact E|]. split; [exact Hidxs|].
  split; [exact (Hcount 0%nat "TCTPTTK"%string eq_refl)|].
  split; [exact (Hcount 1%nat "PEPTIDEK"%string eq_refl)|].
  split; [exact (Hcount 2%nat "AACCAAK"%string eq_refl)|].
  split.
  - apply Hin. split; [reflexivity|]. split; [simpl; lia|].
    split; [repeat constructor|].
    intros kk [<-|[<-|[<-|[]]]]; reflexivity.
  - vm_compute in E. inversion E; subst. split; [reflexivity|].
    intros m Hm. vm_compute in Hm. inversion Hm; subst. reflexivity.
Defined.

(** ** The mass index and [match_decoys] *)

(** When every entry is below [x] the search runs to the end of the list,
    sorted or not. *)
Lemma bisect_loop_all_below (fuel : nat) (a : list Q) (x : Q) (lo hi : nat) :
  (forall i, (i < length a)%nat -> nth i a 0 < x) ->
  (lo <= hi <= length a)%nat -> (hi - lo <= fuel)%nat ->
  bisect_loop fuel a x lo hi = hi.
Proof.
  intros Hall. revert lo hi.
  induction fuel as [|fuel IH]; intros lo hi Hle Hf; cbn [bisect_loop].
  - lia.
  - destruct (lo <? hi)%nat eqn:E.
    + apply Nat.ltb_lt in E. pose proof (div2_between lo hi E) as Hm.
      replace (Qltb (nth ((lo + hi) / 2) a 0) x) with true.
      * apply IH; lia.
      * symmetry. apply Qltb_lt. apply Hall. lia.
    + apply Nat.ltb_ge in E. lia.
Qed.

Lemma bisect_left_all_below (a : list Q) (x : Q) :
  (forall b, In b a -> b < x) -> bisect_left a x = length a.
Proof.
  intros H. unfold bisect_left. apply bisect_loop_all_below; try lia.
  intros i Hi. apply H. apply nth_In. exact Hi.
Qed.

(** A query at or below the first bound starts at the first slice. *)
Lemma bisect_left_first (a : list Q) (x : Q) :
  nondecreasing a -> x <= nth 0 a 0 -> bisect_left a x = 0%nat.
Proof.
  intros Hs Hx. destruct (bisect_left_partition a x Hs) as [Hlt _].
  destruct (bisect_left a x) as [|r] eqn:E; [reflexivity|].
  specialize (Hlt 0%nat ltac:(lia)). lra.
Qed.

(** The unclamped read of line 89: a target mass more than 1 above every
    slice bound indexes the slice offsets one past their end. *)
Lemma tier1_window_overflow (slices : Slices) (pep_mass : Q) :
  (length (sl_idxs slices) <= length (sl_bounds slices))%nat ->
  (forall b, In b (sl_bounds slices) -> b < pep_mass - 1) ->
  tier1_window slices pep_mass = None.
Proof.
  intros Hlen Hall. unfold tier1_window.
  rewrite (bisect_left_all_below _ _ Hall), py_getitem_nat.
  replace (nth_error (sl_idxs slices) (length (sl_bounds slices)))
    with (@None nat); [reflexivity|].
  symmetry. apply nth_error_None. exact Hlen.
Qed.

Lemma match_decoys_overflow (peptide_mz : Q) (decoys : DecoyPeptides)
    (slices : Slices) (var_ptms : VarPTMs) (tol_factor : Q) :
  (length (sl_idxs slices) <= length (sl_bounds slices))%nat ->
  (forall b, In b (sl_bounds slices) -> b < peptide_mz * 2 - 1) ->
  match_decoys peptide_mz decoys slices var_ptms tol_factor = None.
Proof.
  intros Hlen Hall. unfold match_decoys. cbn [mapM].
  unfold match_decoys_charge at 1. unfold tier1, tier1_retrieval.
  rewrite (tier1_window_overflow slices (peptide_mz * inject_Z 2) Hlen Hall).
  reflexivity.
Qed.

(** The clamped reads: with one offset per bound and at least one slice,
    the end of the tier-1 window and both ends of the tier-2 window are
    read inside the offsets. *)
Lemma clamped_reads_in_range (slices : Slices) (x : Q) :
  length (sl_idxs slices) = length (sl_bounds slices) ->
  sl_idxs slices <> [] ->
  (exists stop,
      py_getitem (sl_idxs slices)
        (Z.min (Z.of_nat (bisect_left (sl_bounds slices) x))
               (Z.of_nat (length (sl_idxs slices)) - 1)) = Some stop) /\
  (exists start,
      py_getitem (sl_idxs slices)
        (Z.max (Z.of_nat (bisect_left (sl_bounds slices) x) - 1) 0)
      = Some start).
Proof.
  intros Hlen Hne.
  pose proof (bisect_left_le_length (sl_bounds slices) x) as Hb.
  assert (Hpos : (0 < length (sl_idxs slices))%nat).
  { destruct (sl_idxs slices); [congruence | simpl; lia]. }
  set (b := bisect_left (sl_bounds slices) x) in *.
  split.
  - replace (Z.min (Z.of_nat b) (Z.of_nat (length (sl_idxs slices)) - 1))
      with (Z.of_nat (Nat.min b (length (sl_idxs slices) - 1))) by lia.
    rewrite py_getitem_nat.
    destruct (nth_error (sl_idxs slices)
                (Nat.min b (length (sl_idxs slices) - 1))) as [v|] eqn:E.
    + exists v. reflexivity.
    + apply nth_error_None in E. lia.
  - replace (Z.max (Z.of_nat b - 1) 0) with (Z.of_nat (b - 1)) by lia.
    rewrite py_getitem_nat.
    destruct (nth_error (sl_idxs slices) (b - 1)) as [v|] eqn:E.
    + exists v. reflexivity.
    + apply nth_error_None in E. lia.
Qed.

Lemma tier2_window_total (slices : Slices) (var_ptms : VarPTMs) (pep_mass : Q) :
  length (sl_idxs slices) = length (sl_bounds slices) ->
  sl_idxs slices <> [] ->
  exists w, tier2_window slices var_ptms pep_mass = Some w.
Proof.
  intros Hlen Hne. unfold tier2_window.
  destruct (clamped_reads_in_range slices
              (pep_mass - vp_max_mass var_ptms - 1) Hlen Hne)
    as [_ [start ->]].
  destruct (clamped_reads_in_range slices
              (pep_mass - vp_min_mass var_ptms + 1) Hlen Hne)
    as [[stop ->] _].
  simpl. eexists. reflexivity.
Qed.

(** C4 (the code departs from it): the pool of 500 masses 1000..1499 has
    the single slice bound 1499; for a precursor m/z of 800 the charge-2
    mass 1600 lies more than 1 above it, [bisect_left] returns 1, and the
    unclamped start read [slices.idxs[1]] of line 89 raises [IndexError].
    The same happens when the slice is recorded by the masses at its two
    ends: [bisect_left] returns 2 and [slices.idxs[2]] is read. *)
Theorem match_decoys_index_error
    (seqs : list string) (var_idxs : list (list nat)) (idxs : list nat)
    (mods : list (list ModSite)) (var_ptms : VarPTMs) (tol_factor : Q) :
  sl_idxs pool_slices = [0%nat] /\
  sl_bounds pool_slices = [1499] /\
  bisect_left (sl_bounds pool_slices) (800 * 2 - 1) = 1%nat /\
  match_decoys 800 (mkDecoyPeptides seqs var_idxs idxs mods pool_masses)
    pool_slices var_ptms tol_factor = None /\
  match_decoys 800 (mkDecoyPeptides seqs var_idxs idxs mods pool_masses)
    (mkSlices [0%nat; 499%nat] [1000; 1499]) var_ptms tol_factor = None.
Proof.
  split; [reflexivity|]. split; [reflexivity|]. split; [reflexivity|].
  split; apply match_decoys_overflow.
  - simpl. lia.
  - intros b [<-|[]]. reflexivity.
  - simpl. lia.
  - intros b [<-|[<-|[]]]; reflexivity.
Qed.

Lemma nonzero_from_In (mask : list bool) (n i : nat) :
  In i (map fst (filter snd (enumerate_from n mask))) <->
  (n <= i)%nat /\ nth_error mask (i - n) = Some true.
Proof.
  rewrite in_map_iff. split.
  - intros [[j b] [E H]]. simpl in E. subst j.
    apply filter_In in H. destruct H as [H Hb]. simpl in Hb. subst b.
    apply enumerate_from_In in H. exact H.
  - intros H. exists (i, true). split; [reflexivity|].
    apply filter_In. split; [|reflexivity].
    apply enumerate_from_In. exact H.
Qed.

Lemma nonzero_In (mask : list bool) (i : nat) :
  In i (nonzero mask) <-> nth_error mask i = Some true.
Proof.
  unfold nonzero, enumerate. rewrite nonzero_from_In, Nat.sub_0_r.
  split; [tauto | split; [lia | assumption]].
Qed.

Lemma nth_error_py_slice {A : Type} (l : list A) (start stop i : nat) :
  nth_error (py_slice l start stop) i =
  if (i <? stop - start)%nat then nth_error l (start + i) else None.
Proof.
  unfold py_slice. destruct (i <? stop - start)%nat eqn:E.
  - apply Nat.ltb_lt in E. rewrite nth_error_firstn.
    replace (i <? stop - start)%nat with true
      by (symmetry; apply Nat.ltb_lt; exact E).
    apply nth_error_skipn.
  - apply Nat.ltb_ge in E. rewrite nth_error_firstn.
    replace (i <? stop - start)%nat with false
      by (symmetry; apply Nat.ltb_ge; exact E).
    reflexivity.
Qed.

(** The positions the mask of tier 1 keeps: those of the window whose mass
    is within the tolerance. *)
Lemma tier1_seq_idxs_In (masses : list Q) (start stop : nat) (pep_mass tol : Q)
    (i : nat) :
  In i (tier1_seq_idxs masses start stop pep_mass tol) <->
  (start <= i < stop)%nat /\
  exists x, nth_error masses i = Some x /\
            x <= pep_mass + tol /\ pep_mass - tol <= x.
Proof.
  unfold tier1_seq_idxs. rewrite in_map_iff. split.
  - intros [j [E H]]. subst i. apply nonzero_In in H.
    rewrite nth_error_map, nth_error_py_slice in H.
    destruct (j <? stop - start)%nat eqn:Ej; [|discriminate].
    apply Nat.ltb_lt in Ej. split; [lia|].
    destruct (nth_error masses (start + j)) as [x|] eqn:Ex; [|discriminate].
    simpl in H. inversion H as [Hb]. apply andb_true_iff in Hb.
    destruct Hb as [H1 H2]. apply Qleb_le in H1, H2.
    exists x. rewrite Nat.add_comm. auto.
  - intros [Hr [x [Ex [H1 H2]]]]. exists (i - start)%nat. split; [lia|].
    apply nonzero_In. rewrite nth_error_map, nth_error_py_slice.
    replace (i - start <? stop - start)%nat with true
      by (symmetry; apply Nat.ltb_lt; lia).
    replace (start + (i - start))%nat with i by lia. rewrite Ex. simpl.
    f_equal. apply andb_true_iff. split; apply Qleb_le; assumption.
Qed.

Lemma naive_scan_In (masses : list Q) (pep_mass tol : Q) (i : nat) :
  In i (naive_scan masses pep_mass tol) <->
  exists x, nth_error masses i = Some x /\
            x <= pep_mass + tol /\ pep_mass - tol <= x.
Proof.
  unfold naive_scan. rewrite nonzero_In, nth_error_map. split.
  - destruct (nth_error masses i) as [x|]; [|discriminate].
    simpl. intros H. inversion H as [Hb]. apply andb_true_iff in Hb.
    destruct Hb as [H1 H2]. apply Qleb_le in H1, H2. exists x. auto.
  - intros [x [-> [H1 H2]]]. simpl. f_equal.
    apply andb_true_iff. split; apply Qleb_le; assumption.
Qed.

(** What the retrieval does guarantee, for any slices: it returns the
    positions of the naive scan that lie in the scanned window, hence only
    positions the naive scan returns. *)
Lemma tier1_retrieval_window (masses : list Q) (slices : Slices)
    (pep_mass tol : Q) (l : list nat) :
  tier1_retrieval masses slices pep_mass tol = Some l ->
  exists start stop,
    tier1_window slices pep_mass = Some (start, stop) /\
    forall i, In i l <->
              (start <= i < stop)%nat /\ In i (naive_scan masses pep_mass tol).
Proof.
  unfold tier1_retrieval. intros H. apply bind_Some in H.
  destruct H as [[start stop] [Hw Hl]]. inversion Hl; subst l.
  exists start, stop. split; [exact Hw|]. intros i.
  cbn [fst snd]. rewrite tier1_seq_idxs_In, naive_scan_In. tauto.
Qed.

Lemma py_getitem_In {A : Type} (l : list A) (i : Z) (x : A) :
  py_getitem l i = Some x -> In x l.
Proof.
  unfold py_getitem. destruct (0 <=? i)%Z.
  - apply nth_error_In.
  - destruct (- Z.of_nat (length l) <=? i)%Z; [apply nth_error_In|discriminate].
Qed.

Lemma slice_start_mono (size nslices i j : nat) :
  (i <= j)%nat -> (slice_start size nslices i <= slice_start size nslices j)%nat.
Proof.
  intros H. unfold slice_start.
  destruct nslices as [|n]; [reflexivity|].
  apply Nat.Div0.div_le_mono. nia.
Qed.

(** On the slices of the mass index the window of tier 1 ends at the start
    of a slice: no entry of the last slice is ever retrieved. *)
Lemma tier1_retrieval_skips_last_slice (masses : list Q) (nslices : nat)
    (pep_mass tol : Q) (l : list nat) :
  tier1_retrieval masses (slice_list masses nslices) pep_mass tol = Some l ->
  forall i, In i l ->
            (i < slice_start (length masses) nslices (nslices - 1))%nat.
Proof.
  intros H i Hi. apply tier1_retrieval_window in H.
  destruct H as [start [stop [Hw Hl]]]. apply Hl in Hi. destruct Hi as [Hr _].
  unfold tier1_window in Hw. apply bind_Some in Hw.
  destruct Hw as [start' [_ Hw]]. apply bind_Some in Hw.
  destruct Hw as [stop' [Hstop Hw]]. inversion Hw; subst.
  apply py_getitem_In in Hstop. cbn [slice_list sl_idxs] in Hstop.
  apply in_map_iff in Hstop. destruct Hstop as [j [<- Hj]]. apply in_seq in Hj.
  pose proof (slice_start_mono (length masses) nslices j (nslices - 1)
                ltac:(lia)).
  lia.
Qed.

(** C1 (the code departs from it): the pool of 500 masses 1000..1498 and
    5000 has one slice, with bound 5000. The query for precursor m/z 600 at
    charge 2 (mass 1200, tolerance 0.02) scans the empty window [0, 0) and
    returns nothing, while the linear scan of the mass array returns
    position 200, whose mass is 1200; the whole search returns no candidate
    at either tolerance factor. The same happens when the slice is
    recorded by the masses at its two ends instead of its upper bound. *)
Theorem tier1_retrieval_misses_decoy
    (seqs : list string) (var_idxs : list (list nat)) (idxs : list nat)
    (mods : list (list ModSite)) :
  sl_idxs wide_pool_slices = [0%nat] /\
  sl_bounds wide_pool_slices = [5000] /\
  tier1_window wide_pool_slices (600 * inject_Z 2) = Some (0%nat, 0%nat) /\
  tier1_retrieval wide_pool_masses wide_pool_slices (600 * inject_Z 2)
    ((1 # 100) * inject_Z 2) = Some [] /\
  tier1_retrieval wide_pool_masses (mkSlices [0%nat; 499%nat] [1000; 5000])
    (600 * inject_Z 2) ((1 # 100) * inject_Z 2) = Some [] /\
  naive_scan wide_pool_masses (600 * inject_Z 2) ((1 # 100) * inject_Z 2)
  = [200%nat] /\
  nth_error wide_pool_masses 200 = Some 1200 /\
  match_decoys 600 (mkDecoyPeptides seqs var_idxs idxs mods wide_pool_masses)
    wide_pool_slices acetyl_ptms (1 # 100) = Some [] /\
  match_decoys 600 (mkDecoyPeptides seqs var_idxs idxs mods wide_pool_masses)
    wide_pool_slices acetyl_ptms (1 # 10) = Some [].
Proof.
  repeat split; vm_compute; reflexivity.
Qed.

(** ** The variable-PTM table *)

(** A residue of the catalogue without a usable mass makes the maximum of
    line 537 raise: the table and its bounds are not built. *)
Lemma make_var_ptms_empty_residue (float_set : list Q -> list Q)
    (uniprot : list (string * list Modification)) (fixed_aas : list string)
    (res : string) (mods : list Modification) :
  float_set [] = [] ->
  In (res, mods) uniprot -> str_in res fixed_aas = false ->
  usable_masses mods = [] ->
  make_var_ptms float_set uniprot fixed_aas = None.
Proof.
  intros Hfs Hin Hfix Hempty. unfold make_var_ptms.
  replace (mapM (fun rm => py_max (snd rm))
             (var_ptm_masses float_set uniprot fixed_aas))
    with (@None (list Q)); [reflexivity|].
  symmetry. apply mapM_None with (a := (res, float_set (usable_masses mods))).
  - unfold var_ptm_masses. apply in_map_iff. exists (res, mods).
    split; [reflexivity|]. apply filter_In. split; [exact Hin|].
    simpl. rewrite Hfix. reflexivity.
  - simpl. rewrite Hempty, Hfs. reflexivity.
Qed.

(** Inside the search a residue with an empty mass list is passed over:
    the loops of lines 121-122 do nothing for it. *)
Lemma tier2_skips_empty_residue (decoys : DecoyPeptides) (slices : Slices)
    (before after : list (string * list Q)) (res : string) (hi lo : Q)
    (pep_mass tol : Q) (charge : Z) :
  tier2 decoys slices (mkVarPTMs (before ++ (res, []) :: after) hi lo)
        pep_mass tol charge
  = tier2 decoys slices (mkVarPTMs (before ++ after) hi lo)
          pep_mass tol charge.
Proof.
  unfold tier2, tier2_window. cbn [vp_masses vp_max_mass vp_min_mass].
  rewrite !flat_map_app. cbn [flat_map snd map app]. reflexivity.
Qed.

(** C2 (the code departs from it): serine has no usable mass in
    [uniprot_gap] (one entry without a mass, one above 100), its mass list
    is empty, and building the table raises the [ValueError] of [max] on an
    empty list: the method ends there, whatever the PSMs, and no search
    takes place. *)
Theorem make_var_ptms_value_error :
  var_ptm_masses (float_set first_seen) (uniprot gap_run)
    (make_fixed_aas gap_run (Some "T"%string))
  = [("K"%string, [420106 # 10000]); ("S"%string, [])] /\
  make_var_ptms (float_set first_seen) (uniprot gap_run)
    (make_fixed_aas gap_run (Some "T"%string)) = None /\
  option_map dp_seqs
    (_generate_residue_decoys first_seen K0 gap_run (Some "T"%string)
       (make_fixed_aas gap_run (Some "T"%string)))
  = Some ["PEPTIDEK"; "AAPEPTIDE"]%string /\
  forall (Features : Type) (features_eqb : Features -> Features -> bool)
         (MatchScore : Features -> Q) (C : Collaborators Features)
         (psms : list (PSM Features)),
    _generate_decoy_matches features_eqb MatchScore C first_seen K0 gap_run
      (Some "T"%string) psms = None.
Proof.
  assert (E : make_var_ptms (float_set first_seen) (uniprot gap_run)
                (make_fixed_aas gap_run (Some "T"%string)) = None)
    by (vm_compute; reflexivity).
  split; [vm_compute; reflexivity|]. split; [exact E|].
  split; [vm_compute; reflexivity|].
  intros Features features_eqb MatchScore C psms.
  unfold _generate_decoy_matches.
  destruct (_generate_residue_decoys first_seen K0 gap_run _ _);
    [|reflexivity].
  cbn [bind]. rewrite E. reflexivity.
Qed.

(** ** The assignment loop *)

Lemma foldM_invariant {S A : Type} (R : S -> S -> Prop)
    (f : S -> A -> option S) (l : list A) :
  (forall s, R s s) ->
  (forall s1 s2 s3, R s1 s2 -> R s2 s3 -> R s1 s3) ->
  (forall s a s', In a l -> f s a = Some s' -> R s s') ->
  forall s s', foldM f l s = Some s' -> R s s'.
Proof.
  intros Hrefl Htrans. induction l as [|a l IH]; intros Hstep s s' H.
  - simpl in H. inversion H. apply Hrefl.
  - simpl in H. apply bind_Some in H. destruct H as [s1 [H1 H2]].
    apply Htrans with s1.
    + apply (Hstep s a s1); [left; reflexivity | exact H1].
    + apply IH; [|exact H2]. intros s0 a0 s0' Hin. apply Hstep. right. exact Hin.
Qed.

Lemma list_set_length {A : Type} (l : list A) (i : nat) (x : A) :
  length (list_set l i x) = length l.
Proof.
  revert i. induction l as [|h t IH]; intros i; [reflexivity|].
  destruct i; simpl; [reflexivity | rewrite IH; reflexivity].
Qed.

Lemma nth_error_list_set {A : Type} (l : list A) (i j : nat) (x : A) :
  nth_error (list_set l i x) j =
  if (i =? j)%nat then (if (i <? length l)%nat then Some x else None)
  else nth_error l j.
Proof.
  revert i j. induction l as [|h t IH]; intros i j.
  - simpl. destruct (i =? j)%nat; destruct j; reflexivity.
  - destruct i as [|i], j as [|j]; simpl; try reflexivity.
    rewrite IH. destruct (i =? j)%nat; [|reflexivity].
    destruct (i <? length t)%nat eqn:E.
    + apply Nat.ltb_lt in E.
      replace (S i <? S (length t))%nat with true
        by (symmetry; apply Nat.ltb_lt; lia). reflexivity.
    + apply Nat.ltb_ge in E.
      replace (S i <? S (length t))%nat with false
        by (symmetry; apply Nat.ltb_ge; lia). reflexivity.
Qed.

Lemma Forall2_refl {A : Type} (R : A -> A -> Prop) (l : list A) :
  (forall a, R a a) -> Forall2 R l l.
Proof. intros H. induction l; constructor; auto. Qed.

Lemma Forall2_list_set {A : Type} (R : A -> A -> Prop) (l : list A)
    (i : nat) (x y : A) :
  (forall a, R a a) -> nth_error l i = Some x -> R x y ->
  Forall2 R l (list_set l i y).
Proof.
  intros Hrefl. revert i. induction l as [|h t IH]; intros i Hn Hr.
  - destruct i; discriminate.
  - destruct i as [|i]; simpl in *.
    + inversion Hn; subst. constructor; [exact Hr|].
      apply Forall2_refl. exact Hrefl.
    + constructor; [apply Hrefl | apply IH; assumption].
Qed.

Lemma Forall2_trans {A : Type} (R : A -> A -> Prop) (l1 l2 l3 : list A) :
  (forall a b c, R a b -> R b c -> R a c) ->
  Forall2 R l1 l2 -> Forall2 R l2 l3 -> Forall2 R l1 l3.
Proof.
  intros Ht H12. revert l3. induction H12 as [|a b l1 l2 Hab _ IH]; intros l3 H23.
  - inversion H23. constructor.
  - inversion H23; subst. constructor; [eapply Ht; eassumption | apply IH; assumption].
Qed.

Section Assignment.

Variable Features : Type.
Variable features_eqb : Features -> Features -> bool.
Variable MatchScore : Features -> Q.
Variable C : Collaborators Features.

Lemma psm_step_refl (p : PSM Features) : psm_step MatchScore p p.
Proof.
  split; [reflexivity|]. unfold not_displaced.
  destruct (psm_decoy_id p) as [d|]; [|exact I].
  exists d. split; [reflexivity | left; reflexivity].
Qed.

Lemma psm_step_trans (p1 p2 p3 : PSM Features) :
  psm_step MatchScore p1 p2 -> psm_step MatchScore p2 p3 ->
  psm_step MatchScore p1 p3.
Proof.
  intros [S12 D12] [S23 D23]. split; [congruence|].
  unfold not_displaced in *.
  destruct (psm_decoy_id p1) as [d1|]; [|exact I].
  destruct D12 as [d2 [E2 H12]]. rewrite E2 in D23.
  destruct D23 as [d3 [E3 H23]]. exists d3. split; [exact E3|].
  destruct H12 as [->|H12]; [exact H23|].
  destruct H23 as [->|H23]; [right; exact H12|].
  right. eapply Qlt_trans; eassumption.
Qed.

(** The one place that writes [decoy_id]: the PSM of the spectrum keeps
    its assignment or gets a strictly better one; nothing else changes. *)
Lemma assign_spectrum_step (target : option string)
    (d_candidates : list Peptide) (psms psms' : list (PSM Features))
    (entry : Spectrum * Q * nat) :
  assign_spectrum features_eqb MatchScore C target d_candidates psms entry
    = Some psms' ->
  Forall2 (psm_step MatchScore) psms psms'.
Proof.
  unfold assign_spectrum. intros H.
  apply bind_Some in H. destruct H as [max_match [_ H]].
  apply bind_Some in H. destruct H as [psm [Hpsm H]].
  destruct (improves MatchScore (psm_decoy_id psm) max_match) eqn:Ei.
  - apply bind_Some in H. destruct H as [pos [_ H]].
    apply bind_Some in H. destruct H as [d_peptide [_ H]].
    inversion H; subst psms'.
    apply Forall2_list_set with (x := psm);
      [apply psm_step_refl | exact Hpsm |].
    split; [reflexivity|].
    unfold not_displaced, improves in *. cbn [set_decoy_id psm_decoy_id].
    destruct (psm_decoy_id psm) as [d|]; [|exact I].
    eexists. split; [reflexivity|]. right. apply Qltb_lt in Ei. exact Ei.
  - inversion H; subst. apply Forall2_refl. apply psm_step_refl.
Qed.

Lemma steps_refl (psms : list (PSM Features)) :
  Forall2 (psm_step MatchScore) psms psms.
Proof. apply Forall2_refl. apply psm_step_refl. Qed.

Lemma steps_trans (l1 l2 l3 : list (PSM Features)) :
  Forall2 (psm_step MatchScore) l1 l2 ->
  Forall2 (psm_step MatchScore) l2 l3 ->
  Forall2 (psm_step MatchScore) l1 l3.
Proof. apply Forall2_trans. apply psm_step_trans. Qed.

Lemma process_charge_step (target : option string)
    (match_fn : Q -> Q -> option (list Peptide))
    (pep_idxs : list nat) (mods : list ModSite)
    (psms psms' : list (PSM Features)) (charge : Z) :
  process_charge features_eqb MatchScore C target match_fn pep_idxs mods
    psms charge = Some psms' ->
  Forall2 (psm_step MatchScore) psms psms'.
Proof.
  unfold process_charge. intros H.
  apply bind_Some in H. destruct H as [charges [_ H]].
  apply bind_Some in H. destruct H as [first [_ H]].
  apply bind_Some in H. destruct H as [first_psm [_ H]].
  apply bind_Some in H. destruct H as [spectra [_ H]].
  destruct (py_max_by _ spectra) as [best|].
  - apply bind_Some in H. destruct H as [cands [_ H]].
    destruct cands as [|c cands].
    + inversion H. apply steps_refl.
    + apply bind_Some in H. destruct H as [top [_ H]].
      revert H. apply foldM_invariant.
      * apply steps_refl.
      * apply steps_trans.
      * intros s a s' _. apply assign_spectrum_step.
  - inversion H. apply steps_refl.
Qed.

Lemma process_peptide_step (o : SetOrder) (target : option string)
    (match_fn : Q -> Q -> option (list Peptide)) (pep_strs : list string)
    (psms psms' : list (PSM Features)) (peptide : string) :
  process_peptide features_eqb MatchScore C o target match_fn pep_strs
    psms peptide = Some psms' ->
  Forall2 (psm_step MatchScore) psms psms'.
Proof.
  unfold process_peptide. intros H.
  apply bind_Some in H. destruct H as [first [_ H]].
  apply bind_Some in H. destruct H as [first_psm [_ H]].
  apply bind_Some in H. destruct H as [charges [_ H]].
  revert H. apply foldM_invariant.
  - apply steps_refl.
  - apply steps_trans.
  - intros s a s' _. apply process_charge_step.
Qed.

(** C8: a PSM holds at most one decoy assignment (the field is an
    optional value); every step that writes it ([assign_spectrum]) and
    every run of the assignment loop leaves each PSM with the assignment
    it had or with one of strictly greater ["MatchScore"], so the score
    never decreases and an equal score never displaces the assignment. *)
Theorem assignment_replaced_only_on_strict_improvement :
  (forall target d_candidates psms entry psms',
      assign_spectrum features_eqb MatchScore C target d_candidates psms entry
        = Some psms' ->
      Forall2 (psm_step MatchScore) psms psms') /\
  (forall o target match_fn psms psms',
      assign_decoys features_eqb MatchScore C o target match_fn psms
        = Some psms' ->
      Forall2 (psm_step MatchScore) psms psms') /\
  (forall o K self target_res psms psms',
      _generate_decoy_matches features_eqb MatchScore C o K self target_res
        psms = Some psms' ->
      Forall2 (psm_step MatchScore) psms psms').
Proof.
  assert (Hloop : forall o target match_fn psms psms',
             assign_decoys features_eqb MatchScore C o target match_fn psms
               = Some psms' ->
             Forall2 (psm_step MatchScore) psms psms').
  { intros o target match_fn psms psms'. unfold assign_decoys.
    apply foldM_invariant.
    - apply steps_refl.
    - apply steps_trans.
    - intros s a s' _. apply process_peptide_step. }
  split; [|split].
  - intros target d_candidates psms entry psms'. apply assign_spectrum_step.
  - exact Hloop.
  - intros o K self target_res psms psms' H.
    unfold _generate_decoy_matches in H.
    apply bind_Some in H. destruct H as [decoys [_ H]].
    apply bind_Some in H. destruct H as [var_ptms [_ H]].
    apply Hloop in H. exact H.
Qed.

End Assignment.

(** ** Selecting the winner *)

Lemma max_by_from_spec {A : Type} (key : A -> Q) (l : list A) (best : A) :
  let m := max_by_from key best l in
  (m = best /\ forall x, In x l -> key x <= key best) \/
  (exists p, nth_error l p = Some m /\ key best < key m /\
             (forall j x, (j < p)%nat -> nth_error l j = Some x ->
                          key x < key m) /\
             forall x, In x l -> key x <= key m).
Proof.
  revert best. induction l as [|x l IH]; intros best; cbn [max_by_from].
  - left. split; [reflexivity|]. intros x [].
  - destruct (Qltb (key best) (key x)) eqn:E.
    + apply Qltb_lt in E. right.
      destruct (IH x) as [[Hm Hall]|[p [Hp [Hlt [Hbefore Hall]]]]].
      * exists 0%nat. cbn zeta in Hm. rewrite Hm. split; [reflexivity|].
        split; [exact E|]. split; [intros j y Hj; lia|].
        intros y [<-|Hy]; [lra | apply Hall; exact Hy].
      * exists (S p). split; [exact Hp|]. split; [lra|]. split.
        -- intros j y Hj Hy. destruct j as [|j].
           ++ simpl in Hy. inversion Hy; subst. exact Hlt.
           ++ apply (Hbefore j); [lia | exact Hy].
        -- intros y [<-|Hy]; [lra | apply Hall; exact Hy].
    + apply Qltb_ge in E.
      destruct (IH best) as [[Hm Hall]|[p [Hp [Hlt [Hbefore Hall]]]]].
      * left. split; [exact Hm|].
        intros y [<-|Hy]; [exact E | apply Hall; exact Hy].
      * right. exists (S p). split; [exact Hp|]. split; [exact Hlt|]. split.
        -- intros j y Hj Hy. destruct j as [|j].
           ++ simpl in Hy. inversion Hy; subst. lra.
           ++ apply (Hbefore j); [lia | exact Hy].
        -- intros y [<-|Hy]; [lra | apply Hall; exact Hy].
Qed.

(** [max] returns the first element with the greatest key. *)
Lemma py_max_by_first {A : Type} (key : A -> Q) (l : list A) (m : A) :
  py_max_by key l = Some m ->
  exists p, nth_error l p = Some m /\
            (forall x, In x l -> key x <= key m) /\
            (forall j x, (j < p)%nat -> nth_error l j = Some x ->
                         key x < key m).
Proof.
  destruct l as [|x l]; [discriminate|]. cbn [py_max_by]. intros H.
  inversion H as [Hm]. clear H.
  destruct (max_by_from_spec key l x) as [[E Hall]|[p [Hp [Hlt [Hbefore Hall]]]]].
  - exists 0%nat. cbn zeta in E. rewrite E. split; [reflexivity|]. split.
    + intros y [<-|Hy]; [lra | apply Hall; exact Hy].
    + intros j y Hj. lia.
  - exists (S p). split; [exact Hp|]. split.
    + intros y [<-|Hy]; [lra | apply Hall; exact Hy].
    + intros j y Hj Hy. destruct j as [|j].
      * simpl in Hy. inversion Hy; subst. exact Hlt.
      * apply (Hbefore j); [lia | exact Hy].
Qed.

Lemma py_max_by_nonempty {A : Type} (key : A -> Q) (l : list A) :
  l <> [] -> exists m, py_max_by key l = Some m.
Proof.
  destruct l as [|x l]; [congruence|]. intros _. eexists. reflexivity.
Qed.

(** [index] finds the element [max] returned at the place [max] took it
    from, when equal records have equal keys. *)
Lemma py_index_first_max {A : Type} (eqb : A -> A -> bool) (key : A -> Q)
    (l : list A) (m : A) (p : nat) :
  (forall a, eqb a a = true) ->
  (forall a b, eqb a b = true -> key a == key b) ->
  nth_error l p = Some m ->
  (forall j x, (j < p)%nat -> nth_error l j = Some x -> key x < key m) ->
  py_index eqb m l = Some p.
Proof.
  intros Hrefl Hkey. revert p. induction l as [|y l IH]; intros p Hp Hbefore.
  - destruct p; discriminate.
  - cbn [py_index]. destruct p as [|p].
    + simpl in Hp. inversion Hp; subst. rewrite Hrefl. reflexivity.
    + destruct (eqb y m) eqn:E.
      * exfalso. apply Hkey in E.
        specialize (Hbefore 0%nat y ltac:(lia) eq_refl). lra.
      * rewrite (IH p); [reflexivity | exact Hp |].
        intros j x Hj Hx. apply (Hbefore (S j)); [lia | exact Hx].
Qed.

(** ** The ranking of the prefilter *)

Lemma insert_desc_perm (key : nat -> nat) (k : nat) (l : list nat) :
  Permutation (insert_desc key k l) (k :: l).
Proof.
  induction l as [|h t IH]; cbn [insert_desc]; [reflexivity|].
  destruct (key k <? key h)%nat; [|reflexivity].
  rewrite IH. apply perm_swap.
Qed.

Lemma sorted_desc_perm (key : nat -> nat) (l : list nat) :
  Permutation (sorted_desc key l) l.
Proof.
  induction l as [|k l IH]; [reflexivity|].
  cbn [sorted_desc fold_right]. fold (sorted_desc key l).
  rewrite insert_desc_perm. constructor. exact IH.
Qed.

Lemma insert_desc_sorted (key : nat -> nat) (k : nat) (l : list nat) :
  StronglySorted (ranked_before key) l ->
  (forall h, In h l -> (k < h)%nat) ->
  StronglySorted (ranked_before key) (insert_desc key k l).
Proof.
  induction l as [|h t IH]; intros Hs Hk; cbn [insert_desc].
  - repeat constructor.
  - inversion Hs as [|? ? Hst Hall]; subst. rewrite Forall_forall in Hall.
    destruct (key k <? key h)%nat eqn:E.
    + apply Nat.ltb_lt in E. constructor.
      * apply IH; [exact Hst|]. intros x Hx. apply Hk. right. exact Hx.
      * apply Forall_forall. intros x Hx.
        apply (Permutation_in _ (insert_desc_perm key k t)) in Hx.
        destruct Hx as [<-|Hx]; [left; exact E | apply Hall; exact Hx].
    + apply Nat.ltb_ge in E. constructor; [exact Hs|].
      apply Forall_forall. intros x Hx.
      assert (Hkx : (k < x)%nat) by (apply Hk; exact Hx).
      assert (Hle : (key x <= key h)%nat).
      { destruct Hx as [<-|Hx]; [lia|].
        destruct (Hall x Hx) as [H|[H _]]; lia. }
      unfold ranked_before. lia.
Qed.

Lemma sorted_desc_sorted (key : nat -> nat) (start len : nat) :
  StronglySorted (ranked_before key) (sorted_desc key (seq start len)).
Proof.
  revert start. induction len as [|len IH]; intros start.
  - constructor.
  - cbn [seq sorted_desc fold_right]. fold (sorted_desc key (seq (S start) len)).
    apply insert_desc_sorted; [apply IH|].
    intros h Hh. apply (Permutation_in _ (sorted_desc_perm key _)) in Hh.
    apply in_seq in Hh. lia.
Qed.

Lemma StronglySorted_firstn {A : Type} (R : A -> A -> Prop) (n : nat)
    (l : list A) :
  StronglySorted R l -> StronglySorted R (firstn n l).
Proof.
  revert n. induction l as [|a l IH]; intros n Hs.
  - rewrite firstn_nil. constructor.
  - destruct n as [|n]; [constructor|]. cbn [firstn].
    inversion Hs as [|? ? Hst Hall]; subst.
    constructor; [apply IH; exact Hst|].
    rewrite Forall_forall in *. intros x Hx. apply Hall.
    apply (In_nth _ _ a) in Hx. destruct Hx as [i [Hi <-]].
    rewrite length_firstn in Hi. rewrite nth_firstn.
    replace (i <? n)%nat with true by (symmetry; apply Nat.ltb_lt; lia).
    apply nth_In. lia.
Qed.

Lemma Some_inj {A : Type} (a b : A) : Some a = Some b -> a = b.
Proof. intros H. congruence. Qed.

Lemma firstn_In {A : Type} (n : nat) (l : list A) (x : A) :
  In x (firstn n l) -> In x l.
Proof.
  intros H. rewrite <- (firstn_skipn n l). apply in_or_app. left. exact H.
Qed.

Lemma mapM_nth_error {A : Type} (l : list A) (d : A) (idxs : list nat) :
  (forall k, In k idxs -> (k < length l)%nat) ->
  mapM (nth_error l) idxs = Some (map (fun k => nth k l d) idxs).
Proof.
  intros H. apply mapM_total. intros k Hk.
  apply nth_error_nth'. apply H. exact Hk.
Qed.

Section Selection.

Variable Features : Type.
Variable features_eqb : Features -> Features -> bool.
Variable MatchScore : Features -> Q.
Variable C : Collaborators Features.

(** The prefilter never raises: it lists the candidates by descending
    ion count, equal counts in generation order, and cuts after 1000. *)
Lemma prefilter_ranking (max_spec : Spectrum) (d_candidates : list Peptide) :
  prefilter C max_spec d_candidates =
  Some (map (fun k => nth k d_candidates no_peptide)
            (firstn 1000
               (sorted_desc (fun k => nth k (ion_counts C max_spec d_candidates)
                                          0%nat)
                            (seq 0 (length d_candidates))))).
Proof.
  unfold prefilter.
  rewrite (mapM_total _
             (fun c => length (filter (peak_hit (get_by_ion_mzs C c))
                                      (spec_mz max_spec))))
    by (intros c _; apply count_matched_ions_value).
  cbn [bind]. fold (ion_counts C max_spec d_candidates).
  unfold ion_counts at 2. rewrite length_map.
  apply mapM_nth_error. intros k Hk.
  apply firstn_In in Hk.
  apply (Permutation_in _ (sorted_desc_perm _ _)) in Hk.
  apply in_seq in Hk. lia.
Qed.

(** C5, as the code has it: the candidates that reach the selection are
    listed by the prefilter, by descending matched-ion count against the
    representative spectrum and in generation order only among equal
    counts; the winner for a spectrum is the first candidate of that
    list with the greatest ["MatchScore"], and it is assigned when the
    PSM has no assignment or a strictly lower one. *)
Theorem winner_first_best_of_ranking
    (target : option string) (max_spec : Spectrum)
    (d_candidates top : list Peptide) (psms : list (PSM Features))
    (spec : Spectrum) (mi : Q) (idx : nat) (psm : PSM Features) :
  (forall a, features_eqb a a = true) ->
  (forall a b, features_eqb a b = true -> MatchScore a == MatchScore b) ->
  d_candidates <> [] ->
  prefilter C max_spec d_candidates = Some top ->
  nth_error psms idx = Some psm ->
  let ion_count k := nth k (ion_counts C max_spec d_candidates) 0%nat in
  let score c := MatchScore (decoy_features C c spec target) in
  (exists ranks,
      top = map (fun k => nth k d_candidates no_peptide) ranks /\
      StronglySorted (ranked_before ion_count) ranks /\
      (forall k, In k ranks -> (k < length d_candidates)%nat) /\
      length ranks = Nat.min 1000 (length d_candidates)) /\
  exists pos winner,
    nth_error top pos = Some winner /\
    (forall c, In c top -> score c <= score winner) /\
    (forall j c, (j < pos)%nat -> nth_error top j = Some c ->
                 score c < score winner) /\
    assign_spectrum features_eqb MatchScore C target top psms (spec, mi, idx)
    = Some (if improves MatchScore (psm_decoy_id psm)
                 (decoy_features C winner spec target)
            then list_set psms idx
                   (set_decoy_id psm
                      (mkDecoyID (pep_seq winner) (pep_charge winner)
                         (pep_mods winner)
                         (decoy_features C winner spec target)))
            else psms).
Proof.
  intros Hrefl Hkey Hne Hpre Hpsm ion_count score.
  rewrite prefilter_ranking in Hpre. apply Some_inj in Hpre.
  symmetry in Hpre. subst top.
  set (ranks := firstn 1000
                  (sorted_desc (fun k => nth k (ion_counts C max_spec d_candidates)
                                             0%nat)
                               (seq 0 (length d_candidates)))) in *.
  assert (Hlen : length ranks = Nat.min 1000 (length d_candidates)).
  { unfold ranks. rewrite length_firstn.
    rewrite (Permutation_length (sorted_desc_perm _ _)), length_seq.
    reflexivity. }
  split.
  { exists ranks. split; [reflexivity|]. split; [|split].
    - unfold ranks. apply StronglySorted_firstn. apply sorted_desc_sorted.
    - intros k Hk. unfold ranks in Hk. apply firstn_In in Hk.
      apply (Permutation_in _ (sorted_desc_perm _ _)) in Hk.
      apply in_seq in Hk. lia.
    - exact Hlen. }
  set (top' := map (fun k => nth k d_candidates no_peptide) ranks) in *.
  set (feat := fun c => decoy_features C c spec target).
  assert (Htopne : map feat top' <> []).
  { assert (length (map feat top') <> 0%nat).
    { unfold top'. rewrite !length_map, Hlen.
      destruct d_candidates; [congruence | simpl; lia]. }
    intros E. rewrite E in H. apply H. reflexivity. }
  destruct (py_max_by_nonempty MatchScore _ Htopne) as [m Hm].
  destruct (py_max_by_first MatchScore _ m Hm) as [p [Hp [Hall Hbefore]]].
  rewrite nth_error_map in Hp.
  destruct (nth_error top' p) as [winner|] eqn:Hw; [|discriminate].
  simpl in Hp. inversion Hp as [Hfeat]. subst m.
  exists p, winner. split; [exact Hw|]. split; [|split].
  - intros c Hc. apply Hall. exact (in_map feat _ _ Hc).
  - intros j c Hj Hc. apply (Hbefore j); [exact Hj|].
    rewrite nth_error_map, Hc. reflexivity.
  - unfold assign_spectrum. cbn [fst snd]. fold feat.
    rewrite Hm. cbn [bind]. rewrite Hpsm. cbn [bind].
    change (decoy_features C winner spec target) with (feat winner).
    destruct (improves MatchScore (psm_decoy_id psm) (feat winner));
      [|reflexivity].
    rewrite (py_index_first_max features_eqb MatchScore _ _ p Hrefl Hkey).
    + cbn [bind]. rewrite Hw. reflexivity.
    + rewrite nth_error_map, Hw. reflexivity.
    + exact Hbefore.
Qed.

(** ** The tolerance fallback *)

Lemma search_candidates_eq (match_fn : Q -> Q -> option (list Peptide))
    (pep_mz : Q) (tight wide : list Peptide) :
  match_fn pep_mz (1 # 100) = Some tight ->
  match_fn pep_mz (1 # 10) = Some wide ->
  search_candidates match_fn pep_mz
  = Some (if (length tight <? 1000)%nat then wide else tight).
Proof.
  intros Ht Hw. unfold search_candidates. rewrite Ht. cbn [bind].
  destruct (length tight <? 1000)%nat; [exact Hw | reflexivity].
Qed.

Lemma read_charges (psms : list (PSM Features)) (pep_idxs : list nat) :
  (forall j, In j pep_idxs -> (j < length psms)%nat) ->
  exists charges,
    mapM (fun jj => p <- nth_error psms jj ;; Some (psm_charge p)) pep_idxs
      = Some charges /\
    forall charge,
      map fst (filter (fun jc => Z.eqb (snd jc) charge)
                      (combine pep_idxs charges))
      = charge_pep_idxs psms pep_idxs charge.
Proof.
  induction pep_idxs as [|j l IH]; intros Hr.
  - exists []. split; reflexivity.
  - destruct IH as [charges [E Hf]];
      [intros k Hk; apply Hr; right; exact Hk|].
    destruct (nth_error psms j) as [p|] eqn:Ep.
    + exists (psm_charge p :: charges). split.
      * cbn [mapM]. rewrite Ep. cbn [bind]. rewrite E. reflexivity.
      * intros charge. cbn [combine filter snd]. unfold charge_pep_idxs.
        cbn [filter]. rewrite Ep.
        destruct (Z.eqb (psm_charge p) charge); cbn [map fst];
          rewrite Hf; reflexivity.
    + apply nth_error_None in Ep.
      specialize (Hr j (or_introl eq_refl)). lia.
Qed.

Lemma group_spectra_total (psms : list (PSM Features)) (idxs : list nat) :
  (forall j, In j idxs -> (j < length psms)%nat) ->
  exists spectra, group_spectra C psms idxs = Some spectra.
Proof.
  intros Hr. unfold group_spectra.
  rewrite (mapM_total _
             (fun idx => match nth_error psms idx with
                         | Some p =>
                             match psm_spectrum p with
                             | Some s => [(s, max_intensity C s, idx)]
                             | None => []
                             end
                         | None => []
                         end)).
  - eexists. reflexivity.
  - intros j Hj. destruct (nth_error psms j) as [p|] eqn:Ep; [reflexivity|].
    apply nth_error_None in Ep. specialize (Hr j Hj). lia.
Qed.

(** The candidates that leave the prefilter are candidates that entered it. *)
Lemma prefilter_In (max_spec : Spectrum) (d_candidates top : list Peptide)
    (c : Peptide) :
  prefilter C max_spec d_candidates = Some top ->
  In c top -> In c d_candidates.
Proof.
  rewrite prefilter_ranking. intros E Hc. apply Some_inj in E. subst top.
  apply in_map_iff in Hc. destruct Hc as [k [<- Hk]].
  apply firstn_In in Hk.
  apply (Permutation_in _ (sorted_desc_perm _ _)) in Hk.
  apply in_seq in Hk. apply nth_In. lia.
Qed.

Lemma assigned_from_refl (pool : list Peptide) (psms : list (PSM Features)) :
  Forall2 (assigned_from pool) psms psms.
Proof. apply Forall2_refl. intros p. left. reflexivity. Qed.

Lemma assigned_from_trans (pool : list Peptide)
    (l1 l2 l3 : list (PSM Features)) :
  Forall2 (assigned_from pool) l1 l2 ->
  Forall2 (assigned_from pool) l2 l3 ->
  Forall2 (assigned_from pool) l1 l3.
Proof.
  apply Forall2_trans. intros p1 p2 p3 H12 H23.
  destruct H23 as [->|[c [f [Hc ->]]]]; [exact H12|].
  destruct H12 as [->|[c' [f' [_ ->]]]]; right; exists c, f;
    (split; [exact Hc | reflexivity]).
Qed.

(** The selection for one spectrum writes nothing but a decoy made of one
    of the candidates it is given. *)
Lemma assign_spectrum_from (target : option string)
    (pool d_candidates : list Peptide) (psms psms' : list (PSM Features))
    (entry : Spectrum * Q * nat) :
  (forall c, In c d_candidates -> In c pool) ->
  assign_spectrum features_eqb MatchScore C target d_candidates psms entry
    = Some psms' ->
  Forall2 (assigned_from pool) psms psms'.
Proof.
  unfold assign_spectrum. intros Hsub H.
  apply bind_Some in H. destruct H as [max_match [_ H]].
  apply bind_Some in H. destruct H as [psm [Hpsm H]].
  destruct (improves MatchScore (psm_decoy_id psm) max_match).
  - apply bind_Some in H. destruct H as [pos [_ H]].
    apply bind_Some in H. destruct H as [d_peptide [Hd H]].
    apply Some_inj in H. subst psms'.
    apply Forall2_list_set with (x := psm);
      [intros p; left; reflexivity | exact Hpsm |].
    right. exists d_peptide, max_match. split; [|reflexivity].
    apply Hsub. apply (nth_error_In _ _ Hd).
  - apply Some_inj in H. subst psms'. apply assigned_from_refl.
Qed.

(** The step of a group, once the search has returned [cands]: nothing is
    written but decoys made of candidates of [cands]. *)
Lemma process_charge_from (target : option string)
    (match_fn : Q -> Q -> option (list Peptide))
    (pep_idxs : list nat) (mods : list ModSite)
    (psms psms' : list (PSM Features)) (charge : Z) (first : nat)
    (first_psm : PSM Features) (cands : list Peptide) :
  (forall j, In j pep_idxs -> (j < length psms)%nat) ->
  nth_error (charge_pep_idxs psms pep_idxs charge) 0 = Some first ->
  nth_error psms first = Some first_psm ->
  search_candidates match_fn
    (calculate_mz C (psm_seq first_psm) mods charge) = Some cands ->
  process_charge features_eqb MatchScore C target match_fn pep_idxs mods
    psms charge = Some psms' ->
  Forall2 (assigned_from cands) psms psms'.
Proof.
  intros Hr Hfirst Hpsm Hsearch. unfold process_charge.
  destruct (read_charges psms pep_idxs Hr) as [charges [Ec Hf]].
  rewrite Ec. cbn [bind]. rewrite Hf, Hfirst. cbn [bind].
  rewrite Hpsm. cbn [bind]. intros H.
  apply bind_Some in H. destruct H as [spectra [_ H]].
  destruct (py_max_by _ spectra) as [best|].
  - rewrite Hsearch in H. cbn [bind] in H.
    destruct cands as [|c cands].
    + apply Some_inj in H. subst psms'. apply assigned_from_refl.
    + apply bind_Some in H. destruct H as [top [Etop H]].
      revert H. apply foldM_invariant.
      * apply assigned_from_refl.
      * apply assigned_from_trans.
      * intros s a s' _. apply assign_spectrum_from.
        intros x Hx. apply (prefilter_In _ _ _ _ Etop Hx).
  - apply Some_inj in H. subst psms'. apply assigned_from_refl.
Qed.

(** The step of a group depends on the search through its result alone. *)
Lemma process_charge_search (target : option string)
    (f g : Q -> Q -> option (list Peptide))
    (pep_idxs : list nat) (mods : list ModSite)
    (psms : list (PSM Features)) (charge : Z) (first : nat)
    (first_psm : PSM Features) :
  (forall j, In j pep_idxs -> (j < length psms)%nat) ->
  nth_error (charge_pep_idxs psms pep_idxs charge) 0 = Some first ->
  nth_error psms first = Some first_psm ->
  search_candidates f (calculate_mz C (psm_seq first_psm) mods charge)
  = search_candidates g (calculate_mz C (psm_seq first_psm) mods charge) ->
  process_charge features_eqb MatchScore C target f pep_idxs mods psms charge
  = process_charge features_eqb MatchScore C target g pep_idxs mods psms
      charge.
Proof.
  intros Hr Hfirst Hpsm Hsearch. unfold process_charge.
  destruct (read_charges psms pep_idxs Hr) as [charges [Ec Hf]].
  rewrite Ec. cbn [bind]. rewrite Hf, Hfirst. cbn [bind].
  rewrite Hpsm. cbn [bind]. rewrite Hsearch. reflexivity.
Qed.

(** C7: the group of the PSMs of a peptide with one charge, whose tight
    pass (factor 0.01) returns [tight]. With at least 1000 candidates the
    step of the group is the one the tight result alone gives. With fewer
    it is the one the pass with the factor 0.1, ten times wider, alone
    gives, whatever the tight pass had found: every PSM the step changes
    holds a decoy made of a candidate of the wide result, and when the
    wide result is empty the step ends without error and leaves every PSM
    as it was. *)
Theorem tolerance_widening_replaces
    (target : option string) (match_fn : Q -> Q -> option (list Peptide))
    (pep_idxs : list nat) (mods : list ModSite)
    (psms : list (PSM Features)) (charge : Z)
    (first : nat) (first_psm : PSM Features) (tight : list Peptide) :
  let pep_mz := calculate_mz C (psm_seq first_psm) mods charge in
  let step := fun search =>
    process_charge features_eqb MatchScore C target search pep_idxs mods
      psms charge in
  (forall j, In j pep_idxs -> (j < length psms)%nat) ->
  nth_error (charge_pep_idxs psms pep_idxs charge) 0 = Some first ->
  nth_error psms first = Some first_psm ->
  match_fn pep_mz (1 # 100) = Some tight ->
  (1 # 10) == 10 * (1 # 100) /\
  ((1000 <= length tight)%nat ->
   step match_fn = step (fun _ _ => Some tight)) /\
  ((length tight < 1000)%nat ->
   step match_fn = step (fun _ _ => match_fn pep_mz (1 # 10)) /\
   forall wide,
     match_fn pep_mz (1 # 10) = Some wide ->
     (wide = [] -> step match_fn = Some psms) /\
     (forall psms',
         step match_fn = Some psms' ->
         Forall2 (assigned_from wide) psms psms')).
Proof.
  intros pep_mz step Hr Hfirst Hpsm Ht.
  split; [reflexivity|]. split.
  - intros Hge. unfold step.
    apply (process_charge_search _ _ _ _ _ _ _ first first_psm Hr Hfirst Hpsm).
    fold pep_mz. unfold search_candidates. rewrite Ht. cbn [bind].
    replace (length tight <? 1000)%nat with false
      by (symmetry; apply Nat.ltb_ge; exact Hge).
    reflexivity.
  - intros Hlt.
    assert (Hsearch : search_candidates match_fn pep_mz
                      = match_fn pep_mz (1 # 10)).
    { unfold search_candidates. rewrite Ht. cbn [bind].
      replace (length tight <? 1000)%nat with true
        by (symmetry; apply Nat.ltb_lt; exact Hlt).
      reflexivity. }
    split.
    + unfold step.
      apply (process_charge_search _ _ _ _ _ _ _ first first_psm Hr Hfirst
               Hpsm).
      fold pep_mz. rewrite Hsearch. unfold search_candidates.
      destruct (match_fn pep_mz (1 # 10)) as [wide|]; cbn [bind];
        [|reflexivity].
      destruct (length wide <? 1000)%nat; reflexivity.
    + intros wide Hw. rewrite Hw in Hsearch. split.
      * intros Hnil. unfold step, process_charge.
        destruct (read_charges psms pep_idxs Hr) as [charges [Ec Hf]].
        rewrite Ec. cbn [bind]. rewrite Hf, Hfirst. cbn [bind].
        rewrite Hpsm. cbn [bind].
        destruct (group_spectra_total psms
                    (charge_pep_idxs psms pep_idxs charge)) as [spectra Es].
        { intros j Hj. apply Hr. unfold charge_pep_idxs in Hj.
          apply filter_In in Hj. tauto. }
        rewrite Es. cbn [bind].
        destruct (py_max_by _ spectra); [|reflexivity].
        fold pep_mz. rewrite Hsearch, Hnil. reflexivity.
      * intros psms' Hrun.
        apply (process_charge_from target match_fn pep_idxs mods psms psms'
                 charge first first_psm wide Hr Hfirst Hpsm Hsearch Hrun).
Qed.

End Selection.

(** ** The run with a tie *)

Lemma Qeq_bool_score (a b : Q) : Qeq_bool a b = true -> a == b.
Proof. apply Qeq_bool_iff. Qed.

(** C5 fails as stated: the candidates generated first and fourth tie at
    the greatest score 7; the fourth matches more ions of the spectrum, is
    ranked first by the prefilter, and is the one assigned. *)
Lemma tie_assigns_fourth_candidate :
  nth_error tie_candidates 0 = Some (cand "AAAAAAK") /\
  nth_error tie_candidates 3 = Some (cand "EEEEEEK") /\
  map (fun c => decoy_features tie_collab c tie_spectrum None) tie_candidates
  = [7; 5; 5; 7] /\
  prefilter tie_collab tie_spectrum tie_candidates
  = Some [cand "EEEEEEK"; cand "AAAAAAK"; cand "CCCCCCK"; cand "DDDDDDK"] /\
  assign_decoys Qeq_bool (fun x => x) tie_collab first_seen None
    (fun _ _ => Some tie_candidates) tie_psms
  = Some [mkPSM "TARGETK" [] 2 (Some tie_spectrum)
            (Some (mkDecoyID "EEEEEEK" 2 [] 7))].
Proof.
  repeat split; vm_compute; reflexivity.
Qed.

Lemma winner_first_best_of_ranking_witness :
  exists pos winner,
    nth_error [cand "EEEEEEK"; cand "AAAAAAK"; cand "CCCCCCK"; cand "DDDDDDK"]
              pos = Some winner /\
    assign_spectrum Qeq_bool (fun x => x) tie_collab None
      [cand "EEEEEEK"; cand "AAAAAAK"; cand "CCCCCCK"; cand "DDDDDDK"]
      tie_psms (tie_spectrum, 20, 0%nat)
    = Some [mkPSM "TARGETK" [] 2 (Some tie_spectrum)
              (Some (mkDecoyID (pep_seq winner) (pep_charge winner)
                       (pep_mods winner)
                       (decoy_features tie_collab winner tie_spectrum None)))].
Proof.
  destruct (winner_first_best_of_ranking Q Qeq_bool (fun x => x) tie_collab
              None tie_spectrum tie_candidates
              [cand "EEEEEEK"; cand "AAAAAAK"; cand "CCCCCCK"; cand "DDDDDDK"]
              tie_psms tie_spectrum 20 0%nat
              (mkPSM "TARGETK" [] 2 (Some tie_spectrum) None))
    as [_ [pos [winner [Hpos [_ [_ Hassign]]]]]].
  - intros a. apply Qeq_bool_refl.
  - exact Qeq_bool_score.
  - discriminate.
  - vm_compute. reflexivity.
  - reflexivity.
  - exists pos, winner. split; [exact Hpos | exact Hassign].
Defined.

(** The tight pass finds the candidate AAAAAAK, scored 7, and the wide
    pass the candidates CCCCCCK and DDDDDDK, scored 5: the PSM is given
    CCCCCCK. Had the two results been merged, or the tight result kept,
    AAAAAAK would have won. *)
Lemma tolerance_widening_replaces_witness :
  narrow_then_wide 500 (1 # 100) = Some [cand "AAAAAAK"] /\
  narrow_then_wide 500 (1 # 10) = Some [cand "CCCCCCK"; cand "DDDDDDK"] /\
  decoy_features tie_collab (cand "AAAAAAK") tie_spectrum None = 7 /\
  process_charge Qeq_bool (fun x => x) tie_collab None narrow_then_wide
    [0%nat] [] tie_psms 2
  = Some [mkPSM "TARGETK" [] 2 (Some tie_spectrum)
            (Some (mkDecoyID "CCCCCCK" 2 [] 5))] /\
  process_charge Qeq_bool (fun x => x) tie_collab None narrow_then_wide
    [0%nat] [] tie_psms 2
  = process_charge Qeq_bool (fun x => x) tie_collab None
      (fun _ _ => Some [cand "CCCCCCK"; cand "DDDDDDK"])
      [0%nat] [] tie_psms 2 /\
  Forall2 (assigned_from [cand "CCCCCCK"; cand "DDDDDDK"]) tie_psms
    [mkPSM "TARGETK" [] 2 (Some tie_spectrum)
       (Some (mkDecoyID "CCCCCCK" 2 [] 5))].
Proof.
  assert (Erun : process_charge Qeq_bool (fun x => x) tie_collab None
                   narrow_then_wide [0%nat] [] tie_psms 2
                 = Some [mkPSM "TARGETK" [] 2 (Some tie_spectrum)
                           (Some (mkDecoyID "CCCCCCK" 2 [] 5))])
    by (vm_compute; reflexivity).
  destruct (tolerance_widening_replaces Q Qeq_bool (fun x => x) tie_collab
              None narrow_then_wide [0%nat] [] tie_psms 2 0%nat
              (mkPSM "TARGETK" [] 2 (Some tie_spectrum) None)
              [cand "AAAAAAK"])
    as [_ [_ Hwide]].
  - intros j [<-|[]]. simpl. lia.
  - reflexivity.
  - reflexivity.
  - reflexivity.
  - destruct Hwide as [Heq Hfrom]; [simpl; lia|].
    destruct (Hfrom [cand "CCCCCCK"; cand "DDDDDDK"] eq_refl) as [_ Hall].
    split; [reflexivity|]. split; [reflexivity|]. split; [reflexivity|].
    split; [exact Erun|]. split; [exact Heq|].
    apply Hall. exact Erun.
Defined.

(** The PSM holds a decoy scored 7; the best candidate of the run scores 7
    as well and does not displace it. *)
Lemma assignment_replaced_only_on_strict_improvement_witness :
  assign_decoys Qeq_bool (fun x => x) tie_collab first_seen None
    (fun _ _ => Some tie_candidates) tie_psms_assigned
  = Some tie_psms_assigned /\
  Forall2 (psm_step (fun x => x)) tie_psms_assigned tie_psms_assigned.
Proof.
  assert (E : assign_decoys Qeq_bool (fun x => x) tie_collab first_seen None
                (fun _ _ => Some tie_candidates) tie_psms_assigned
              = Some tie_psms_assigned) by (vm_compute; reflexivity).
  split; [exact E|].
  destruct (assignment_replaced_only_on_strict_improvement Q Qeq_bool
              (fun x => x) tie_collab) as [_ [Hloop _]].
  exact (Hloop first_seen None (fun _ _ => Some tie_candidates)
           tie_psms_assigned tie_psms_assigned E).
Defined.

(** ** The loop as a list of updates *)

Lemma mapM_ext {A B : Type} (f g : A -> option B) (l : list A) :
  (forall a, In a l -> f a = g a) -> mapM f l = mapM g l.
Proof.
  induction l as [|a l IH]; intros H; [reflexivity|].
  cbn [mapM]. rewrite (H a (or_introl eq_refl)).
  rewrite IH by (intros b Hb; apply H; right; exact Hb). reflexivity.
Qed.

Lemma mapM_In {A B : Type} (f : A -> option B) (l : list A) (bs : list B)
    (b : B) :
  mapM f l = Some bs -> In b bs -> exists a, In a l /\ f a = Some b.
Proof.
  revert bs. induction l as [|a l IH]; intros bs H Hb.
  - inversion H; subst. contradiction.
  - cbn [mapM] in H. apply bind_Some in H. destruct H as [b0 [E0 H]].
    apply bind_Some in H. destruct H as [bs0 [E1 H]].
    inversion H; subst. destruct Hb as [<-|Hb].
    + exists a. split; [left; reflexivity | exact E0].
    + destruct (IH bs0 E1 Hb) as [a' [Ha' Hf]].
      exists a'. split; [right; exact Ha' | exact Hf].
Qed.

Section Updates.

Variable Features : Type.
Variable features_eqb : Features -> Features -> bool.
Variable MatchScore : Features -> Q.
Variable C : Collaborators Features.

Hypothesis features_eqb_refl : forall a, features_eqb a a = true.
Hypothesis features_eqb_score :
  forall a b, features_eqb a b = true -> MatchScore a == MatchScore b.

Local Abbreviation state := (list (PSM Features)).
Local Abbreviation upd := (Update Features).

Lemma nth_error_apply_update (st : state) (u : upd) (k : nat) :
  nth_error (apply_update MatchScore st u) k =
  if (fst u =? k)%nat then option_map (update_psm MatchScore u) (nth_error st k)
  else nth_error st k.
Proof.
  unfold apply_update, update_psm.
  destruct (nth_error st (fst u)) as [psm|] eqn:E.
  - destruct (improves MatchScore (psm_decoy_id psm) (fst (snd u))) eqn:Ei.
    + rewrite nth_error_list_set.
      destruct (Nat.eqb_spec (fst u) k) as [<-|Hne]; [|reflexivity].
      rewrite E. cbn [option_map]. rewrite Ei.
      replace (fst u <? length st)%nat with true; [reflexivity|].
      symmetry. apply Nat.ltb_lt. apply nth_error_Some. congruence.
    + destruct (Nat.eqb_spec (fst u) k) as [<-|Hne]; [|reflexivity].
      rewrite E. cbn [option_map]. rewrite Ei. reflexivity.
  - destruct (Nat.eqb_spec (fst u) k) as [<-|Hne]; [|reflexivity].
    rewrite E. reflexivity.
Qed.

Lemma update_psm_static (u : upd) (psm : PSM Features) :
  psm_static (update_psm MatchScore u psm) = psm_static psm.
Proof.
  unfold update_psm. destruct (improves _ _ _); reflexivity.
Qed.

Lemma apply_update_static (st : state) (u : upd) :
  map psm_static (apply_update MatchScore st u) = map psm_static st.
Proof.
  apply nth_error_ext. intros k.
  rewrite !nth_error_map, nth_error_apply_update.
  destruct (fst u =? k)%nat; [|reflexivity].
  destruct (nth_error st k) as [p|]; [|reflexivity].
  cbn [option_map]. rewrite update_psm_static. reflexivity.
Qed.

Lemma apply_updates_static (us : list upd) (st : state) :
  map psm_static (apply_updates MatchScore us st) = map psm_static st.
Proof.
  unfold apply_updates. revert st.
  induction us as [|u us IH]; intros st; [reflexivity|].
  cbn [fold_left]. rewrite IH. apply apply_update_static.
Qed.

Lemma static_length (st st0 : state) :
  map psm_static st = map psm_static st0 -> length st = length st0.
Proof.
  intros H. apply (f_equal (@length _)) in H.
  rewrite !length_map in H. exact H.
Qed.

(** Updates of different PSMs commute. *)
Lemma apply_update_comm (st : state) (u v : upd) :
  fst u <> fst v ->
  apply_update MatchScore (apply_update MatchScore st u) v
  = apply_update MatchScore (apply_update MatchScore st v) u.
Proof.
  intros Hne. apply nth_error_ext. intros k.
  rewrite !nth_error_apply_update.
  destruct (Nat.eqb_spec (fst v) k) as [Ev|Nv];
    destruct (Nat.eqb_spec (fst u) k) as [Eu|Nu]; try reflexivity.
  congruence.
Qed.

Lemma apply_updates_comm1 (us : list upd) (v : upd) (st : state) :
  (forall u, In u us -> fst u <> fst v) ->
  apply_update MatchScore (apply_updates MatchScore us st) v
  = apply_updates MatchScore us (apply_update MatchScore st v).
Proof.
  unfold apply_updates. revert st.
  induction us as [|u us IH]; intros st H; [reflexivity|].
  cbn [fold_left]. rewrite IH by (intros w Hw; apply H; right; exact Hw).
  f_equal. apply apply_update_comm. apply H. left. reflexivity.
Qed.

Lemma apply_updates_comm (us vs : list upd) (st : state) :
  (forall u v, In u us -> In v vs -> fst u <> fst v) ->
  apply_updates MatchScore vs (apply_updates MatchScore us st)
  = apply_updates MatchScore us (apply_updates MatchScore vs st).
Proof.
  revert st. induction vs as [|v vs IH]; intros st H; [reflexivity|].
  unfold apply_updates at 1 4. cbn [fold_left].
  fold (apply_updates MatchScore vs
          (apply_update MatchScore (apply_updates MatchScore us st) v)).
  fold (apply_updates MatchScore vs (apply_update MatchScore st v)).
  rewrite apply_updates_comm1
    by (intros u Hu; apply H; [exact Hu | left; reflexivity]).
  apply IH. intros u w Hu Hw. apply H; [exact Hu | right; exact Hw].
Qed.

Lemma apply_updates_app (us vs : list upd) (st : state) :
  apply_updates MatchScore (us ++ vs) st
  = apply_updates MatchScore vs (apply_updates MatchScore us st).
Proof. unfold apply_updates. apply fold_left_app. Qed.

(** *** Running the plans of a list of groups *)

Lemma run_plans_cons {B : Type} (plan : B -> option (list upd)) (a : B)
    (l : list B) (st : state) :
  run_plans MatchScore plan (a :: l) st
  = bind (plan a) (fun ua =>
      run_plans MatchScore plan l (apply_updates MatchScore ua st)).
Proof.
  unfold run_plans. cbn [mapM].
  destruct (plan a) as [ua|]; [|reflexivity]. cbn [bind].
  destruct (mapM plan l) as [uss|]; [|reflexivity]. cbn [bind concat].
  rewrite apply_updates_app. reflexivity.
Qed.

(** A loop whose body amounts to running updates that depend on the
    unchanging part of the state only is the run of all the plans. *)
Lemma foldM_run_plans {B : Type} (P : state -> Prop)
    (step : state -> B -> option state) (plan : B -> option (list upd))
    (l : list B) :
  (forall st a, In a l -> P st ->
      step st a = bind (plan a) (fun us =>
                    Some (apply_updates MatchScore us st))) ->
  (forall st us, P st -> P (apply_updates MatchScore us st)) ->
  forall st, P st -> foldM step l st = run_plans MatchScore plan l st.
Proof.
  intros Hstep HP. induction l as [|a l IH]; intros st Hst.
  - reflexivity.
  - rewrite run_plans_cons. cbn [foldM].
    rewrite (Hstep st a (or_introl eq_refl) Hst).
    destruct (plan a) as [ua|]; [|reflexivity]. cbn [bind].
    apply IH.
    + intros st' b Hb. apply Hstep. right. exact Hb.
    + apply HP. exact Hst.
Qed.

(** Groups that update different PSMs can be run in any order. *)
Lemma run_plans_perm {B : Type} (eq_dec : forall a b : B, {a = b} + {a <> b})
    (plan : B -> option (list upd)) (l l' : list B) :
  (forall a b ua ub, In a l -> In b l -> a <> b ->
      plan a = Some ua -> plan b = Some ub ->
      forall u v, In u ua -> In v ub -> fst u <> fst v) ->
  Permutation l l' ->
  forall st, run_plans MatchScore plan l st = run_plans MatchScore plan l' st.
Proof.
  intros Hdis Hperm. revert Hdis.
  induction Hperm as [|x l l' Hp IH|x y l|l l' l'' Hp1 IH1 Hp2 IH2];
    intros Hdis st.
  - reflexivity.
  - rewrite !run_plans_cons. destruct (plan x) as [ux|]; [|reflexivity].
    cbn [bind]. apply IH. intros a b ua ub Ha Hb.
    apply Hdis; right; assumption.
  - rewrite !run_plans_cons.
    destruct (plan x) as [ux|] eqn:Ex, (plan y) as [uy|] eqn:Ey;
      cbn [bind]; try reflexivity.
    + rewrite !run_plans_cons, Ex, Ey. cbn [bind].
      destruct (eq_dec x y) as [->|Hne].
      * assert (ux = uy) by congruence. subst. reflexivity.
      * f_equal. apply apply_updates_comm.
        intros u v Hu Hv.
        apply (Hdis y x uy ux); simpl; auto.
    + rewrite run_plans_cons, Ey. reflexivity.
    + rewrite run_plans_cons, Ex. reflexivity.
  - rewrite IH1 by exact Hdis. apply IH2.
    intros a b ua ub Ha Hb. apply Hdis.
    + apply (Permutation_in _ (Permutation_sym Hp1)). exact Ha.
    + apply (Permutation_in _ (Permutation_sym Hp1)). exact Hb.
Qed.

(** Plans with the same effect can replace each other group by group. *)
Lemma run_plans_ext {B : Type} (plan1 plan2 : B -> option (list upd))
    (l : list B) :
  (forall a st, In a l ->
      bind (plan1 a) (fun us => Some (apply_updates MatchScore us st))
      = bind (plan2 a) (fun us => Some (apply_updates MatchScore us st))) ->
  forall st, run_plans MatchScore plan1 l st = run_plans MatchScore plan2 l st.
Proof.
  induction l as [|a l IH]; intros H st; [reflexivity|].
  rewrite !run_plans_cons.
  pose proof (H a st (or_introl eq_refl)) as Ha.
  destruct (plan1 a) as [u1|], (plan2 a) as [u2|]; cbn [bind] in *;
    try discriminate; try reflexivity.
  apply Some_inj in Ha. rewrite Ha. apply IH.
  intros b st' Hb. apply H. right. exact Hb.
Qed.

End Updates.

Section LoopAsUpdates.

Variable Features : Type.
Variable features_eqb : Features -> Features -> bool.
Variable MatchScore : Features -> Q.
Variable C : Collaborators Features.

Hypothesis features_eqb_refl : forall a, features_eqb a a = true.
Hypothesis features_eqb_score :
  forall a b, features_eqb a b = true -> MatchScore a == MatchScore b.

Local Abbreviation state := (list (PSM Features)).
Local Abbreviation upd := (Update Features).

(** Once [max] has returned, [index] and the read of the candidate do not
    fail: the body of the loop over the spectra is an update. *)
Lemma assign_spectrum_update (target : option string) (top : list Peptide)
    (st : state) (entry : Spectrum * Q * nat) :
  assign_spectrum features_eqb MatchScore C target top st entry
  = bind (entry_plan features_eqb MatchScore C target top (length st) entry)
         (fun u => Some (apply_update MatchScore st u)).
Proof.
  unfold assign_spectrum, entry_plan, proposal.
  set (dpsm_vars := map (fun c => decoy_features C c (fst (fst entry)) target)
                        top).
  destruct (py_max_by MatchScore dpsm_vars) as [m|] eqn:Em; [|reflexivity].
  cbn [bind].
  destruct (py_max_by_first MatchScore _ m Em) as [p [Hp [_ Hbefore]]].
  rewrite (py_index_first_max features_eqb MatchScore dpsm_vars m p
             features_eqb_refl features_eqb_score Hp Hbefore).
  cbn [bind].
  unfold dpsm_vars in Hp. rewrite nth_error_map in Hp.
  destruct (nth_error top p) as [d|] eqn:Ed; [|discriminate].
  cbn [bind].
  destruct (nth_error st (snd entry)) as [psm|] eqn:Epsm.
  - assert (Hlt : (snd entry < length st)%nat)
      by (apply nth_error_Some; congruence).
    replace (snd entry <? length st)%nat with true
      by (symmetry; apply Nat.ltb_lt; exact Hlt).
    cbn [bind]. unfold apply_update. cbn [fst snd]. rewrite Epsm.
    destruct (improves MatchScore (psm_decoy_id psm) m); reflexivity.
  - apply nth_error_None in Epsm.
    replace (snd entry <? length st)%nat with false
      by (symmetry; apply Nat.ltb_ge; exact Epsm).
    reflexivity.
Qed.

Lemma apply_update_length (st : state) (u : upd) :
  length (apply_update MatchScore st u) = length st.
Proof.
  apply static_length. apply apply_update_static.
Qed.

Lemma assign_spectra_updates (target : option string) (top : list Peptide)
    (spectra : list (Spectrum * Q * nat)) (n : nat) (st : state) :
  length st = n ->
  foldM (assign_spectrum features_eqb MatchScore C target top) spectra st
  = bind (mapM (entry_plan features_eqb MatchScore C target top n) spectra)
         (fun us => Some (apply_updates MatchScore us st)).
Proof.
  revert st. induction spectra as [|e l IH]; intros st Hn.
  - reflexivity.
  - cbn [foldM mapM]. rewrite assign_spectrum_update, Hn.
    destruct (entry_plan features_eqb MatchScore C target top n e) as [u|];
      [|reflexivity].
    cbn [bind]. rewrite IH by (rewrite apply_update_length; exact Hn).
    destruct (mapM _ l) as [us|]; reflexivity.
Qed.

(** The body of the loop over the charges runs the plan of the charge. *)
Lemma process_charge_updates (target : option string)
    (match_fn : Q -> Q -> option (list Peptide))
    (pep_idxs : list nat) (mods : list ModSite) (st : state) (charge : Z) :
  process_charge features_eqb MatchScore C target match_fn pep_idxs mods
    st charge
  = bind (charge_plan features_eqb MatchScore C target match_fn pep_idxs mods
            st charge)
         (fun us => Some (apply_updates MatchScore us st)).
Proof.
  unfold process_charge, charge_plan.
  destruct (mapM _ pep_idxs) as [charges|]; [|reflexivity]. cbn [bind].
  destruct (nth_error _ 0) as [first|]; [|reflexivity]. cbn [bind].
  destruct (nth_error st first) as [first_psm|]; [|reflexivity]. cbn [bind].
  destruct (group_spectra C st _) as [spectra|]; [|reflexivity]. cbn [bind].
  destruct (py_max_by _ spectra) as [best|]; [|reflexivity].
  destruct (search_candidates match_fn _) as [[|c cands]|]; try reflexivity.
  cbn [bind].
  destruct (prefilter C _ _) as [top|]; [|reflexivity]. cbn [bind].
  apply assign_spectra_updates. reflexivity.
Qed.

(** *** The plans read the unchanging part of the PSMs only *)

Lemma read_static {B : Type}
    (g : string * list ModSite * Z * option Spectrum -> option B)
    (st st0 : state) (j : nat) :
  map psm_static st = map psm_static st0 ->
  bind (nth_error st j) (fun p => g (psm_static p))
  = bind (nth_error st0 j) (fun p => g (psm_static p)).
Proof.
  intros H. apply (f_equal (fun l => nth_error l j)) in H.
  rewrite !nth_error_map in H.
  destruct (nth_error st j) as [p|], (nth_error st0 j) as [p0|];
    cbn [option_map bind] in *; try discriminate; [|reflexivity].
  apply Some_inj in H. rewrite H. reflexivity.
Qed.

Lemma read_charges_static (st st0 : state) (idxs : list nat) :
  map psm_static st = map psm_static st0 ->
  mapM (fun jj => p <- nth_error st jj ;; Some (psm_charge p)) idxs
  = mapM (fun jj => p <- nth_error st0 jj ;; Some (psm_charge p)) idxs.
Proof.
  intros H. apply mapM_ext. intros j _.
  exact (read_static (fun t => Some (snd (fst t))) st st0 j H).
Qed.

Lemma group_spectra_static (st st0 : state) (idxs : list nat) :
  map psm_static st = map psm_static st0 ->
  group_spectra C st idxs = group_spectra C st0 idxs.
Proof.
  intros H. unfold group_spectra. f_equal. apply mapM_ext. intros j _.
  exact (read_static
           (fun t => Some (match snd t with
                           | Some s => [(s, max_intensity C s, j)]
                           | None => []
                           end)) st st0 j H).
Qed.

Lemma charge_plan_static (target : option string)
    (match_fn : Q -> Q -> option (list Peptide))
    (pep_idxs : list nat) (mods : list ModSite) (st st0 : state) (charge : Z) :
  map psm_static st = map psm_static st0 ->
  charge_plan features_eqb MatchScore C target match_fn pep_idxs mods st charge
  = charge_plan features_eqb MatchScore C target match_fn pep_idxs mods st0
      charge.
Proof.
  intros H. unfold charge_plan.
  rewrite (read_charges_static st st0 pep_idxs H).
  destruct (mapM _ pep_idxs) as [charges|]; [|reflexivity]. cbn [bind].
  destruct (nth_error _ 0) as [first|]; [|reflexivity]. cbn [bind].
  rewrite (group_spectra_static st st0 _ H), (static_length _ st st0 H).
  exact (read_static
           (fun t =>
              spectra <- group_spectra C st0
                           (map fst (filter (fun jc => Z.eqb (snd jc) charge)
                                            (combine pep_idxs charges))) ;;
              match py_max_by (fun e => snd (fst e)) spectra with
              | None => Some []
              | Some best =>
                  d_candidates <-
                    search_candidates match_fn
                      (calculate_mz C (fst (fst (fst t))) mods charge) ;;
                  match d_candidates with
                  | [] => Some []
                  | _ :: _ =>
                      top <- prefilter C (fst (fst best)) d_candidates ;;
                      mapM (entry_plan features_eqb MatchScore C target top
                              (length st0)) spectra
                  end
              end) st st0 first H).
Qed.

End LoopAsUpdates.

Section OrderIndependence.

Variable Features : Type.
Variable features_eqb : Features -> Features -> bool.
Variable MatchScore : Features -> Q.
Variable C : Collaborators Features.

Hypothesis features_eqb_refl : forall a, features_eqb a a = true.
Hypothesis features_eqb_score :
  forall a b, features_eqb a b = true -> MatchScore a == MatchScore b.

Local Abbreviation state := (list (PSM Features)).
Local Abbreviation upd := (Update Features).

(** *** The PSMs a plan updates *)

Lemma read_charges_In (st : state) (idxs : list nat) (charges : list Z)
    (j : nat) (c : Z) :
  mapM (fun jj => p <- nth_error st jj ;; Some (psm_charge p)) idxs
    = Some charges ->
  In (j, c) (combine idxs charges) ->
  In j idxs /\ exists p, nth_error st j = Some p /\ psm_charge p = c.
Proof.
  revert charges. induction idxs as [|i idxs IH]; intros charges H Hin.
  - simpl in Hin. contradiction.
  - cbn [mapM] in H. apply bind_Some in H. destruct H as [c0 [E0 H]].
    apply bind_Some in H. destruct H as [cs [E1 H]]. apply Some_inj in H.
    subst charges. cbn [combine] in Hin. destruct Hin as [E|Hin].
    + inversion E; subst. split; [left; reflexivity|].
      apply bind_Some in E0. destruct E0 as [p [Ep Ec]].
      apply Some_inj in Ec. exists p. auto.
    + destruct (IH cs E1 Hin) as [Hj Hp]. split; [right; exact Hj | exact Hp].
Qed.

Lemma group_spectra_In (st : state) (idxs : list nat)
    (spectra : list (Spectrum * Q * nat)) (e : Spectrum * Q * nat) :
  group_spectra C st idxs = Some spectra -> In e spectra -> In (snd e) idxs.
Proof.
  unfold group_spectra. intros H He.
  apply bind_Some in H. destruct H as [entries [Hm H]].
  apply Some_inj in H. subst spectra.
  apply in_concat in He. destruct He as [block [Hb He]].
  destruct (mapM_In _ _ _ _ Hm Hb) as [j [Hj Hf]].
  apply bind_Some in Hf. destruct Hf as [p [_ Hf]]. apply Some_inj in Hf.
  subst block. destruct (psm_spectrum p); [|contradiction].
  destruct He as [<-|[]]. exact Hj.
Qed.

Lemma entry_plan_idx (target : option string) (top : list Peptide) (n : nat)
    (e : Spectrum * Q * nat) (u : upd) :
  entry_plan features_eqb MatchScore C target top n e = Some u ->
  fst u = snd e.
Proof.
  unfold entry_plan. intros H. apply bind_Some in H. destruct H as [pr [_ H]].
  destruct (snd e <? n)%nat; [|discriminate].
  apply Some_inj in H. subst u. reflexivity.
Qed.

(** The plan of a charge updates PSMs of the peptide with that charge. *)
Lemma charge_plan_domain (target : option string)
    (match_fn : Q -> Q -> option (list Peptide))
    (pep_idxs : list nat) (mods : list ModSite) (st : state) (charge : Z)
    (us : list upd) (u : upd) :
  charge_plan features_eqb MatchScore C target match_fn pep_idxs mods st charge
    = Some us ->
  In u us ->
  In (fst u) pep_idxs /\
  exists p, nth_error st (fst u) = Some p /\ psm_charge p = charge.
Proof.
  unfold charge_plan. intros H Hu.
  apply bind_Some in H. destruct H as [charges [Ec H]].
  apply bind_Some in H. destruct H as [first [_ H]].
  apply bind_Some in H. destruct H as [first_psm [_ H]].
  apply bind_Some in H. destruct H as [spectra [Es H]].
  assert (Hin : forall e, In e spectra ->
            In (snd e) pep_idxs /\
            exists p, nth_error st (snd e) = Some p /\ psm_charge p = charge).
  { intros e He. apply (group_spectra_In _ _ _ _ Es) in He.
    apply in_map_iff in He. destruct He as [[j c] [Ej Hj]].
    cbn [fst] in Ej. rewrite <- Ej. apply filter_In in Hj.
    destruct Hj as [Hj Hc]. cbn [snd] in Hc. apply Z.eqb_eq in Hc. subst c.
    apply (read_charges_In _ _ _ _ _ Ec Hj). }
  destruct (py_max_by _ spectra) as [best|].
  - apply bind_Some in H. destruct H as [cands [_ H]].
    destruct cands as [|c cands].
    + apply Some_inj in H. subst us. contradiction.
    + apply bind_Some in H. destruct H as [top [_ H]].
      destruct (mapM_In _ _ _ _ H Hu) as [e [He Hp]].
      apply entry_plan_idx in Hp. rewrite Hp. apply Hin. exact He.
  - apply Some_inj in H. subst us. contradiction.
Qed.

Lemma peptide_idxs_In (pep_strs : list string) (peptide : string) (i : nat) :
  In i (map fst (filter (fun ip => String.eqb (snd ip) peptide)
                        (enumerate pep_strs))) ->
  nth_error pep_strs i = Some peptide.
Proof.
  intros H. apply in_map_iff in H. destruct H as [[j s] [Ej Hj]].
  cbn [fst] in Ej. subst j. apply filter_In in Hj. destruct Hj as [Hj Hs].
  cbn [snd] in Hs. apply String.eqb_eq in Hs. subst s.
  apply enumerate_from_In in Hj. rewrite Nat.sub_0_r in Hj. tauto.
Qed.

(** The plan of a peptide updates PSMs of that peptide. *)
Lemma peptide_plan_domain (o : SetOrder) (target : option string)
    (match_fn : Q -> Q -> option (list Peptide)) (pep_strs : list string)
    (st : state) (peptide : string) (us : list upd) (u : upd) :
  peptide_plan features_eqb MatchScore C o target match_fn pep_strs st peptide
    = Some us ->
  In u us -> nth_error pep_strs (fst u) = Some peptide.
Proof.
  unfold peptide_plan. intros H Hu.
  apply bind_Some in H. destruct H as [first [_ H]].
  apply bind_Some in H. destruct H as [first_psm [_ H]].
  apply bind_Some in H. destruct H as [charges [_ H]].
  apply bind_Some in H. destruct H as [uss [Hm H]].
  apply Some_inj in H. subst us.
  apply in_concat in Hu. destruct Hu as [block [Hb Hu]].
  destruct (mapM_In _ _ _ _ Hm Hb) as [c [_ Hc]].
  apply peptide_idxs_In.
  exact (proj1 (charge_plan_domain _ _ _ _ _ _ _ _ Hc Hu)).
Qed.

(** *** The loops run their plans *)

Lemma charges_run (o : SetOrder) (target : option string)
    (match_fn : Q -> Q -> option (list Peptide))
    (pep_idxs : list nat) (mods : list ModSite) (st0 st : state)
    (charges : list Z) :
  map psm_static st = map psm_static st0 ->
  foldM (process_charge features_eqb MatchScore C target match_fn pep_idxs
           mods) charges st
  = run_plans MatchScore
      (charge_plan features_eqb MatchScore C target match_fn pep_idxs mods st0)
      charges st.
Proof.
  intros H.
  apply (foldM_run_plans Features MatchScore
           (fun s => map psm_static s = map psm_static st0)).
  - intros s c _ Hs. rewrite process_charge_updates by assumption.
    rewrite (charge_plan_static Features features_eqb MatchScore C target
               match_fn pep_idxs mods s st0 c Hs).
    reflexivity.
  - intros s us Hs. rewrite apply_updates_static. exact Hs.
  - exact H.
Qed.

Lemma bind_concat_run {B : Type} (plan : B -> option (list upd)) (l : list B)
    (st : state) :
  bind (uss <- mapM plan l ;; Some (concat uss))
       (fun us => Some (apply_updates MatchScore us st))
  = run_plans MatchScore plan l st.
Proof.
  unfold run_plans. destruct (mapM plan l); reflexivity.
Qed.

Lemma process_peptide_updates (o : SetOrder) (target : option string)
    (match_fn : Q -> Q -> option (list Peptide)) (pep_strs : list string)
    (st : state) (peptide : string) :
  process_peptide features_eqb MatchScore C o target match_fn pep_strs st
    peptide
  = bind (peptide_plan features_eqb MatchScore C o target match_fn pep_strs
            st peptide)
         (fun us => Some (apply_updates MatchScore us st)).
Proof.
  unfold process_peptide, peptide_plan.
  destruct (nth_error _ 0) as [first|]; [|reflexivity]. cbn [bind].
  destruct (nth_error st first) as [first_psm|]; [|reflexivity]. cbn [bind].
  destruct (mapM _ _) as [charges|]; [|reflexivity]. cbn [bind].
  rewrite bind_concat_run. apply (charges_run o). reflexivity.
Qed.

Lemma peptide_plan_static (o : SetOrder) (target : option string)
    (match_fn : Q -> Q -> option (list Peptide)) (pep_strs : list string)
    (st st0 : state) (peptide : string) :
  map psm_static st = map psm_static st0 ->
  peptide_plan features_eqb MatchScore C o target match_fn pep_strs st peptide
  = peptide_plan features_eqb MatchScore C o target match_fn pep_strs st0
      peptide.
Proof.
  intros H. unfold peptide_plan.
  destruct (nth_error _ 0) as [first|]; [|reflexivity]. cbn [bind].
  pose proof (f_equal (fun l => nth_error l first) H) as Hf.
  cbn beta in Hf. rewrite !nth_error_map in Hf.
  destruct (nth_error st first) as [p|], (nth_error st0 first) as [p0|];
    cbn [option_map] in Hf; try discriminate; [|reflexivity].
  apply Some_inj in Hf. cbn [bind].
  assert (Hmods : psm_mods p = psm_mods p0)
    by exact (f_equal (fun t => snd (fst (fst t))) Hf).
  rewrite Hmods, (read_charges_static Features st st0 _ H).
  destruct (mapM _ _) as [charges|]; [|reflexivity]. cbn [bind].
  f_equal. apply mapM_ext. intros c _.
  apply charge_plan_static; assumption.
Qed.

Lemma assign_decoys_run (o : SetOrder) (target : option string)
    (match_fn : Q -> Q -> option (list Peptide)) (psms : state) :
  let pep_strs :=
    map (fun p => merge_seq_mods C (psm_seq p) (psm_mods p)) psms in
  assign_decoys features_eqb MatchScore C o target match_fn psms
  = run_plans MatchScore
      (peptide_plan features_eqb MatchScore C o target match_fn pep_strs psms)
      (pep_set o pep_strs) psms.
Proof.
  intros pep_strs. unfold assign_decoys. fold pep_strs.
  apply (foldM_run_plans Features MatchScore
           (fun s => map psm_static s = map psm_static psms)).
  - intros s pep _ Hs. rewrite process_peptide_updates.
    rewrite (peptide_plan_static o target match_fn pep_strs s psms pep Hs).
    reflexivity.
  - intros s us Hs. rewrite apply_updates_static. exact Hs.
  - reflexivity.
Qed.

(** The plans of a peptide under two orders of its charges have the same
    effect. *)
Lemma peptide_plan_order (o1 o2 : SetOrder) (target : option string)
    (match_fn : Q -> Q -> option (list Peptide)) (pep_strs : list string)
    (psms st : state) (peptide : string) :
  set_order_ok o1 -> set_order_ok o2 ->
  bind (peptide_plan features_eqb MatchScore C o1 target match_fn pep_strs
          psms peptide)
       (fun us => Some (apply_updates MatchScore us st))
  = bind (peptide_plan features_eqb MatchScore C o2 target match_fn pep_strs
            psms peptide)
         (fun us => Some (apply_updates MatchScore us st)).
Proof.
  intros [_ [_ [_ Hc1]]] [_ [_ [_ Hc2]]]. unfold peptide_plan.
  destruct (nth_error _ 0) as [first|]; [|reflexivity]. cbn [bind].
  destruct (nth_error psms first) as [first_psm|]; [|reflexivity].
  cbn [bind].
  destruct (mapM _ _) as [charges|]; [|reflexivity]. cbn [bind].
  rewrite !bind_concat_run.
  apply (run_plans_perm Features MatchScore Z.eq_dec).
  - intros a b ua ub _ _ Hab Ha Hb u v Hu Hv E.
    destruct (charge_plan_domain _ _ _ _ _ _ _ _ Ha Hu) as [_ [p [Hp Hpc]]].
    destruct (charge_plan_domain _ _ _ _ _ _ _ _ Hb Hv) as [_ [q [Hq Hqc]]].
    rewrite E in Hp. congruence.
  - destruct (Hc1 charges) as [N1 I1]. destruct (Hc2 charges) as [N2 I2].
    apply NoDup_Permutation; try assumption.
    intros x. rewrite I1, I2. tauto.
Qed.

Lemma assign_decoys_order (o1 o2 : SetOrder) (target : option string)
    (match_fn : Q -> Q -> option (list Peptide)) (psms : state) :
  set_order_ok o1 -> set_order_ok o2 ->
  assign_decoys features_eqb MatchScore C o1 target match_fn psms
  = assign_decoys features_eqb MatchScore C o2 target match_fn psms.
Proof.
  intros H1 H2. rewrite !assign_decoys_run. cbv zeta.
  set (pep_strs := map (fun p => merge_seq_mods C (psm_seq p) (psm_mods p))
                       psms).
  rewrite (run_plans_perm Features MatchScore string_dec _
             (pep_set o1 pep_strs) (pep_set o2 pep_strs)).
  - apply run_plans_ext. intros pep st _.
    apply peptide_plan_order; assumption.
  - intros a b ua ub _ _ Hab Ha Hb u v Hu Hv E.
    pose proof (peptide_plan_domain _ _ _ _ _ _ _ _ Ha Hu) as Hpa.
    pose proof (peptide_plan_domain _ _ _ _ _ _ _ _ Hb Hv) as Hpb.
    rewrite E in Hpa. congruence.
  - destruct H1 as [_ [Hp1 _]]. destruct H2 as [_ [Hp2 _]].
    destruct (Hp1 pep_strs) as [N1 I1]. destruct (Hp2 pep_strs) as [N2 I2].
    apply NoDup_Permutation; try assumption.
    intros x. rewrite I1, I2. tauto.
Qed.

End OrderIndependence.

(** ** Iteration orders *)

Lemma nodup_set_ok {A : Type} (dec : forall a b : A, {a = b} + {a <> b})
    (l : list A) :
  NoDup (nodup dec l) /\ forall x, In x (nodup dec l) <-> In x l.
Proof.
  split; [apply NoDup_nodup | intros x; apply nodup_In].
Qed.

Lemma rev_nodup_set_ok {A : Type} (dec : forall a b : A, {a = b} + {a <> b})
    (l : list A) :
  NoDup (rev (nodup dec l)) /\ forall x, In x (rev (nodup dec l)) <-> In x l.
Proof.
  split.
  - apply NoDup_rev. apply NoDup_nodup.
  - intros x. rewrite <- in_rev. apply nodup_In.
Qed.

Lemma first_seen_ok : set_order_ok first_seen.
Proof.
  repeat split; try apply NoDup_nodup; try apply nodup_In; auto.
Qed.

Lemma decoys_reversed_ok : set_order_ok decoys_reversed.
Proof.
  unfold set_order_ok, decoys_reversed. cbn.
  split; [intros l; apply rev_nodup_set_ok|].
  split; [intros l; apply nodup_set_ok|].
  split; [intros l x; tauto|].
  intros l; apply nodup_set_ok.
Qed.

Lemma peptides_reversed_ok : set_order_ok peptides_reversed.
Proof.
  unfold set_order_ok, peptides_reversed. cbn.
  split; [intros l; apply nodup_set_ok|].
  split; [intros l; apply rev_nodup_set_ok|].
  split; [intros l x; tauto|].
  intros l; apply rev_nodup_set_ok.
Qed.

Lemma make_var_ptms_float_set (f g : list Q -> list Q)
    (table : list (string * list Modification)) (fixed_aas : list string) :
  (forall l, f l = g l) ->
  make_var_ptms f table fixed_aas = make_var_ptms g table fixed_aas.
Proof.
  intros H. unfold make_var_ptms.
  replace (var_ptm_masses f table fixed_aas)
    with (var_ptm_masses g table fixed_aas); [reflexivity|].
  unfold var_ptm_masses. apply map_ext. intros rm. rewrite H. reflexivity.
Qed.

(** C3, as the code has it: the assignments of a run are fixed by the
    inputs together with the order in which the set of decoy sequences
    (and the sets of modification masses) are iterated; the orders in
    which the set of peptide strings and the sets of charge states are
    iterated do not matter. *)
Theorem assignment_fixed_by_decoy_order
    (Features : Type) (features_eqb : Features -> Features -> bool)
    (MatchScore : Features -> Q) (C : Collaborators Features)
    (o1 o2 : SetOrder) (K : Constants) (self : Validate)
    (target_res : option string) (psms : list (PSM Features)) :
  (forall a, features_eqb a a = true) ->
  (forall a b, features_eqb a b = true -> MatchScore a == MatchScore b) ->
  set_order_ok o1 -> set_order_ok o2 ->
  decoy_set o1 (filter (decoy_ok K target_res) (decoy_db self))
  = decoy_set o2 (filter (decoy_ok K target_res) (decoy_db self)) ->
  (forall l, float_set o1 l = float_set o2 l) ->
  _generate_decoy_matches features_eqb MatchScore C o1 K self target_res psms
  = _generate_decoy_matches features_eqb MatchScore C o2 K self target_res
      psms.
Proof.
  intros Hrefl Hscore Hok1 Hok2 Hdecoys Hfloat.
  unfold _generate_decoy_matches.
  assert (Hpool : forall fixed_aas,
             _generate_residue_decoys o1 K self target_res fixed_aas
             = _generate_residue_decoys o2 K self target_res fixed_aas).
  { intros fixed_aas. unfold _generate_residue_decoys, get_decoys.
    rewrite Hdecoys. reflexivity. }
  rewrite Hpool.
  destruct (_generate_residue_decoys o2 K self target_res _) as [decoys|];
    [|reflexivity].
  cbn [bind].
  rewrite (make_var_ptms_float_set _ _ _ _ Hfloat).
  destruct (make_var_ptms (float_set o2) _ _) as [var_ptms|]; [|reflexivity].
  cbn [bind].
  apply assign_decoys_order; assumption.
Qed.

Lemma peptides_reversed_same_decoys (l : list string) :
  decoy_set first_seen l = decoy_set peptides_reversed l.
Proof. reflexivity. Qed.

(** Three PSMs, two peptides, two charge states: the peptides and the
    charges visited in opposite orders. *)
Lemma assignment_fixed_by_decoy_order_witness :
  _generate_decoy_matches Qeq_bool (fun x => x) flat_collab first_seen K0
    big_run None three_psms
  = _generate_decoy_matches Qeq_bool (fun x => x) flat_collab
      peptides_reversed K0 big_run None three_psms.
Proof.
  apply (assignment_fixed_by_decoy_order Q Qeq_bool (fun x => x) flat_collab
           first_seen peptides_reversed K0 big_run None three_psms).
  - intros a. apply Qeq_bool_refl.
  - exact Qeq_bool_score.
  - exact first_seen_ok.
  - exact peptides_reversed_ok.
  - apply peptides_reversed_same_decoys.
  - intros l. reflexivity.
Defined.

(** C3 fails as stated: the 999 short decoys of [big_db] have the same mass
    and score; iterating the set of decoy sequences from its first or from
    its last element puts a different one at the head of the pool, and a
    different one is assigned. *)
Lemma decoy_order_changes_assignment :
  set_order_ok first_seen /\ set_order_ok decoys_reversed /\
  assigned_seqs
    (_generate_decoy_matches Qeq_bool (fun x => x) flat_collab first_seen K0
       big_run None tie_psms)
  = Some [Some "PEPTAAA"%string] /\
  assigned_seqs
    (_generate_decoy_matches Qeq_bool (fun x => x) flat_collab decoys_reversed
       K0 big_run None tie_psms)
  = Some [Some "PEPTDLW"%string].
Proof.
  split; [exact first_seen_ok|]. split; [exact decoys_reversed_ok|].
  split; vm_compute; reflexivity.
Qed.

(** * Further properties of the engine *)

(** ** [get_decoys] *)




(** ** The fixed residues (lines 506-515) *)






(** ** The variable-PTM table (lines 532-540) *)








(** ** The prefilter and the first tier of the search *)




(** ** The fixed modifications of a sequence *)




(** ** When the placement of the target modification fails *)




(** ** The candidates of [match_decoys] *)






(** ** The Unimod table *)


Section Assoc.

Variables K V : Type.
Variable eqb : K -> K -> bool.
Hypothesis eqb_eq : forall a b, eqb a b = true <-> a = b.


Lemma assoc_get_set_other (d : list (K * V)) (k k' : K) (v : V) :
  k <> k' ->
  assoc_get eqb (assoc_set eqb d k v) k' = assoc_get eqb d k'.
Proof.
  intros Hne. induction d as [|[k0 v0] d IH]; cbn [assoc_set assoc_get].
  - destruct (eqb k k') eqn:E; [|reflexivity].
    apply eqb_eq in E. contradiction.
  - destruct (eqb k0 k) eqn:E; cbn [assoc_get].
    + apply eqb_eq in E. subst k0.
      destruct (eqb k k') eqn:E'; [|reflexivity].
      apply eqb_eq in E'. contradiction.
    + destruct (eqb k0 k'); [reflexivity | exact IH].
Qed.



End Assoc.








